(** * Bloom filter: hash engine, packed bit array and the filter coordinator

    A shallow embedding of [include/bloomfilter/types.hpp],
    [include/bloomfilter/hash_functions.hpp] and
    [include/bloomfilter/bloom_filter.hpp].

    Conventions of the embedding.
    - [size_t] and [uint64_t] are 64-bit unsigned integers: a value is a [Z]
      in [0, 2^64) and every arithmetic result is reduced by [wrap64].
    - [uint8_t] is a [Z] in [0, 256); a store to a byte is reduced by [wrap8].
    - [double] is a binary64 number ([PrimFloat.float]); the functions of
      <cmath> that the code calls are a record [Libm] passed to the code
      that uses them.
    - A pointer-and-size argument [(data, size)] is an [option (list byte)]:
      [None] is the null pointer, [Some bs] a readable buffer of
      [length bs] bytes with [size = length bs] (a [size_t], so below
      [2^64]).
    - A [std::vector] access out of range and a remainder by zero have no
      defined behaviour in C++; the operations that perform them return
      [None] there. *)

From Stdlib Require Import ZArith Lia List Bool Floats.
From Stdlib Require Strings.Byte Strings.String.
From stdpp Require Import base list list_numbers.

Local Open Scope Z_scope.
Set Warnings "-inexact-float".

(** ** Machine integers *)

Definition wrap64 (z : Z) : Z := z mod 2 ^ 64.
Definition wrap8 (z : Z) : Z := z mod 2 ^ 8.

Definition byte_val (b : Byte.byte) : Z := Z.of_N (Byte.to_N b).

(** ** hash_functions.hpp *)

Module MurmurHash3.

Definition c1 : Z := 0x87c37b91114253d5.
Definition c2 : Z := 0x4cf5ad432745937f.

(** [(x << r) | (x >> (64 - r))] on [uint64_t]. *)
Definition rotl64 (x r : Z) : Z :=
  Z.lor (wrap64 (Z.shiftl x r)) (Z.shiftr x (64 - r)).

Definition fmix64 (k : Z) : Z :=
  let k := Z.lxor k (Z.shiftr k 33) in
  let k := wrap64 (k * 0xff51afd7ed558ccd) in
  let k := Z.lxor k (Z.shiftr k 33) in
  let k := wrap64 (k * 0xc4ceb9fe1a85ec53) in
  let k := Z.lxor k (Z.shiftr k 33) in
  k.

(** [blocks[i]]: the eight bytes at offset [8 * i], read as one
    [uint64_t] in the byte order of the machine (little-endian). *)
Fixpoint le_word (bs : list Byte.byte) : Z :=
  match bs with
  | [] => 0
  | b :: bs' => Z.lor (byte_val b) (Z.shiftl (le_word bs') 8)
  end.

Definition block (bytes : list Byte.byte) (i : nat) : Z :=
  le_word (take 8 (drop (8 * i) bytes)).

Definition mix_k1 (k1 : Z) : Z :=
  let k1 := wrap64 (k1 * c1) in
  let k1 := rotl64 k1 31 in
  let k1 := wrap64 (k1 * c2) in
  k1.

(** One iteration of the body loop. *)
Definition body_step (bytes : list Byte.byte) (h1 : Z) (i : nat) : Z :=
  let k1 := block bytes i in
  let k1 := mix_k1 k1 in
  let h1 := Z.lxor h1 k1 in
  let h1 := rotl64 h1 27 in
  let h1 := wrap64 (wrap64 (h1 * 5) + 0x52dce729) in
  h1.

Definition tail_byte (tail : list Byte.byte) (j : nat) : Z :=
  match tail !! j with Some b => byte_val b | None => 0 end.

(** The [switch (size & 7)] with its fall-through: case [c] runs the
    statements of every case from [c] down to [1]. *)
Definition tail_step (tail : list Byte.byte) (rem : Z) (h1 : Z) : Z :=
  let k1 := 0 in
  let k1 := if 7 <=? rem then Z.lxor k1 (Z.shiftl (tail_byte tail 6) 48) else k1 in
  let k1 := if 6 <=? rem then Z.lxor k1 (Z.shiftl (tail_byte tail 5) 40) else k1 in
  let k1 := if 5 <=? rem then Z.lxor k1 (Z.shiftl (tail_byte tail 4) 32) else k1 in
  let k1 := if 4 <=? rem then Z.lxor k1 (Z.shiftl (tail_byte tail 3) 24) else k1 in
  let k1 := if 3 <=? rem then Z.lxor k1 (Z.shiftl (tail_byte tail 2) 16) else k1 in
  let k1 := if 2 <=? rem then Z.lxor k1 (Z.shiftl (tail_byte tail 1) 8) else k1 in
  if 1 <=? rem then
    let k1 := Z.lxor k1 (tail_byte tail 0) in
    Z.lxor h1 (mix_k1 k1)
  else h1.

Definition hash (bytes : list Byte.byte) (seed : Z) : Z :=
  let size := Z.of_nat (length bytes) in
  let nblocks := Z.to_nat (size / 8) in
  let h1 := foldl (body_step bytes) seed (seq 0 nblocks) in
  let tail := drop (nblocks * 8) bytes in
  let h1 := tail_step tail (Z.land size 7) h1 in
  let h1 := Z.lxor h1 size in
  fmix64 h1.

End MurmurHash3.

(** [DoubleHasher]: its three fields ([dh_bit_array_size_] is its
    [bit_array_size_], renamed apart from the field of [BloomFilter]). Both
    base hashes are [MurmurHash3] objects, each holding only its seed. *)
Record DoubleHasher := mkDoubleHasher {
  dh_bit_array_size_ : Z;
  hash1_ : Z;
  hash2_ : Z
}.

Definition default_seed1 : Z := 0.
Definition default_seed2 : Z := 0x1234567890abcdef.

(** [DoubleHasher(bit_array_size)] with the default seeds. *)
Definition DoubleHasher_new (bit_array_size : Z) : DoubleHasher :=
  mkDoubleHasher bit_array_size default_seed1 default_seed2.

(** [if (h2 % 2 == 0) h2 += 1;] *)
Definition make_odd (h2 : Z) : Z :=
  if h2 mod 2 =? 0 then wrap64 (h2 + 1) else h2.

Definition base_h1 (dh : DoubleHasher) (data : list Byte.byte) : Z :=
  MurmurHash3.hash data (hash1_ dh).
Definition base_h2 (dh : DoubleHasher) (data : list Byte.byte) : Z :=
  make_odd (MurmurHash3.hash data (hash2_ dh)).

(** The value stored in [hashes[i]], which is also what
    [DoubleHasher::hash(data, size, i)] returns. *)
Definition probe (dh : DoubleHasher) (data : list Byte.byte) (i : Z) : Z :=
  wrap64 (base_h1 dh data + wrap64 (i * base_h2 dh data)) mod dh_bit_array_size_ dh.

(** [get_all_hashes(data, size, k, hashes)]: the contents of [hashes[0..k)]
    on return. The remainder by [bit_array_size_ = 0] is undefined. *)
Definition get_all_hashes (dh : DoubleHasher) (data : list Byte.byte) (k : Z)
  : option (list Z) :=
  if (dh_bit_array_size_ dh =? 0) && (0 <? k) then None
  else Some (map (probe dh data) (seqZ 0 k)).

(** ** types.hpp *)

Definition DEFAULT_FALSE_POSITIVE_RATE : float := 0.01%float.
Definition MIN_BIT_ARRAY_SIZE : Z := 64.
Definition MIN_HASH_FUNCTIONS : Z := 1.
Definition MAX_HASH_FUNCTIONS : Z := 32.
Definition LN_2 : float := 0.6931471805599453%float.
Definition LN_2_SQUARED : float := 0.4804530139182014%float.

(** The functions of <cmath> used by the parameter calculator. *)
Record Libm := mkLibm {
  c_log : float -> float;
  c_exp : float -> float;
  c_pow : float -> float -> float;
  c_ceil : float -> float;
  c_round : float -> float
}.

(** [static_cast<double>(n)] for a [size_t]: the nearest binary64 number. *)
Definition double_of_size_t (n : Z) : float :=
  SF2Prim (binary_normalize prec emax n 0 false).

(** [static_cast<size_t>(d)]: truncation toward zero; undefined when the
    truncated value is not a [size_t] (also for infinities and NaN). *)
Definition size_t_of_double (d : float) : option Z :=
  match Prim2SF d with
  | S754_zero _ => Some 0
  | S754_finite s m e =>
      let t := if 0 <=? e then Z.pos m * 2 ^ e else Z.pos m / 2 ^ (- e) in
      if s then (if t =? 0 then Some 0 else None)
      else if t <? 2 ^ 64 then Some t else None
  | _ => None
  end.

Definition fle (a b : float) : bool := PrimFloat.leb a b.
Definition flt (a b : float) : bool := PrimFloat.ltb a b.

Section ParameterCalculator.
Variable libm : Libm.

Definition calculate_optimal_bit_array_size (expected_elements : Z)
    (false_positive_rate : float) : option Z :=
  if expected_elements =? 0 then Some MIN_BIT_ARRAY_SIZE
  else
    let false_positive_rate :=
      if fle false_positive_rate 0 || fle 1 false_positive_rate
      then DEFAULT_FALSE_POSITIVE_RATE else false_positive_rate in
    let m := (- double_of_size_t expected_elements
              * c_log libm false_positive_rate / LN_2_SQUARED)%float in
    result ← size_t_of_double (c_ceil libm m);
    Some (Z.max result MIN_BIT_ARRAY_SIZE).

Definition calculate_optimal_hash_count (bit_array_size expected_elements : Z)
    : option Z :=
  if expected_elements =? 0 then Some 1
  else
    let k := (double_of_size_t bit_array_size
              / double_of_size_t expected_elements * LN_2)%float in
    result ← size_t_of_double (c_round libm k);
    Some (Z.max MIN_HASH_FUNCTIONS (Z.min result MAX_HASH_FUNCTIONS)).

Definition estimate_false_positive_rate
    (bit_array_size hash_count inserted_elements : Z) : float :=
  if (bit_array_size =? 0) || (hash_count =? 0) then 1%float
  else if inserted_elements =? 0 then 0%float
  else
    let exponent := (- double_of_size_t hash_count
                     * double_of_size_t inserted_elements
                     / double_of_size_t bit_array_size)%float in
    let base := (1 - c_exp libm exponent)%float in
    c_pow libm base (double_of_size_t hash_count).

End ParameterCalculator.

(** ** bloom_filter.hpp *)

Record BloomFilter := mkBloomFilter {
  bit_array_size_ : Z;
  bit_array_bytes_ : Z;
  hash_count_ : Z;
  expected_elements_ : Z;
  false_positive_rate_ : float;
  inserted_count_ : Z;
  bit_array_ : list Z;
  hasher_ : DoubleHasher
}.

Definition with_bit_array (f : BloomFilter) (a : list Z) : BloomFilter :=
  mkBloomFilter (bit_array_size_ f) (bit_array_bytes_ f) (hash_count_ f)
    (expected_elements_ f) (false_positive_rate_ f) (inserted_count_ f)
    a (hasher_ f).

Definition with_inserted_count (f : BloomFilter) (c : Z) : BloomFilter :=
  mkBloomFilter (bit_array_size_ f) (bit_array_bytes_ f) (hash_count_ f)
    (expected_elements_ f) (false_positive_rate_ f) c
    (bit_array_ f) (hasher_ f).

(** What an attempt to construct a filter ends in. *)
Inductive construction :=
| Constructed (f : BloomFilter)
| invalid_argument
| undefined_behaviour.

(** [bit_array_.resize(n, 0)] on the empty vector. *)
Definition resize0 (n : Z) : list Z := replicate (Z.to_nat n) 0.

Section Constructors.
Variable libm : Libm.

(** [BloomFilter(expected_elements, false_positive_rate)] *)
Definition BloomFilter_derived (expected_elements : Z)
    (false_positive_rate : float) : construction :=
  if expected_elements =? 0 then invalid_argument
  else if fle false_positive_rate 0 || fle 1 false_positive_rate
  then invalid_argument
  else
    match calculate_optimal_bit_array_size libm expected_elements
            false_positive_rate with
    | None => undefined_behaviour
    | Some bit_array_size =>
      match calculate_optimal_hash_count libm bit_array_size
              expected_elements with
      | None => undefined_behaviour
      | Some hash_count =>
        let bit_array_bytes := wrap64 (bit_array_size + 7) / 8 in
        Constructed
          (mkBloomFilter bit_array_size bit_array_bytes hash_count
             expected_elements false_positive_rate 0
             (resize0 bit_array_bytes) (DoubleHasher_new bit_array_size))
      end
    end.

(** [BloomFilter(bit_array_size, hash_count, expected_elements)] *)
Definition BloomFilter_explicit
    (bit_array_size hash_count expected_elements : Z) : construction :=
  let bit_array_bytes := wrap64 (bit_array_size + 7) / 8 in
  let false_positive_rate :=
    estimate_false_positive_rate libm bit_array_size hash_count
      expected_elements in
  if bit_array_size =? 0 then invalid_argument
  else if (hash_count =? 0) || (MAX_HASH_FUNCTIONS <? hash_count)
  then invalid_argument
  else
    Constructed
      (mkBloomFilter bit_array_size bit_array_bytes hash_count
         expected_elements false_positive_rate 0
         (resize0 bit_array_bytes) (DoubleHasher_new bit_array_size)).

End Constructors.

(** [set_bit(position)] *)
Definition set_bit (f : BloomFilter) (position : Z) : option BloomFilter :=
  if bit_array_size_ f <=? position then Some f
  else
    let byte_index := Z.to_nat (position / 8) in
    let bit_index := position mod 8 in
    b ← bit_array_ f !! byte_index;
    Some (with_bit_array f
            (<[byte_index := wrap8 (Z.lor b (Z.shiftl 1 bit_index))]>
               (bit_array_ f))).

(** [get_bit(position)] *)
Definition get_bit (f : BloomFilter) (position : Z) : option bool :=
  if bit_array_size_ f <=? position then Some false
  else
    let byte_index := Z.to_nat (position / 8) in
    let bit_index := position mod 8 in
    b ← bit_array_ f !! byte_index;
    Some (negb (Z.land b (Z.shiftl 1 bit_index) =? 0)).

(** [for (size_t hash : hashes) set_bit(hash);] *)
Fixpoint set_bits (f : BloomFilter) (hashes : list Z) : option BloomFilter :=
  match hashes with
  | [] => Some f
  | h :: hs => f' ← set_bit f h; set_bits f' hs
  end.

(** [for (size_t hash : hashes) if (!get_bit(hash)) return false;
     return true;] *)
Fixpoint all_bits (f : BloomFilter) (hashes : list Z) : option bool :=
  match hashes with
  | [] => Some true
  | h :: hs =>
      b ← get_bit f h;
      if negb b then Some false else all_bits f hs
  end.

(** [insert(data, size)] *)
Definition insert (f : BloomFilter) (data : option (list Byte.byte))
  : option BloomFilter :=
  match data with
  | None => Some f
  | Some bytes =>
      if Z.of_nat (length bytes) =? 0 then Some f
      else
        hashes ← get_all_hashes (hasher_ f) bytes (hash_count_ f);
        f' ← set_bits f hashes;
        Some (with_inserted_count f' (wrap64 (inserted_count_ f' + 1)))
  end.

(** [contains(data, size)] *)
Definition contains (f : BloomFilter) (data : option (list Byte.byte))
  : option bool :=
  match data with
  | None => Some false
  | Some bytes =>
      if Z.of_nat (length bytes) =? 0 then Some false
      else
        hashes ← get_all_hashes (hasher_ f) bytes (hash_count_ f);
        all_bits f hashes
  end.

Definition size (f : BloomFilter) : Z := inserted_count_ f.
Definition capacity (f : BloomFilter) : Z := expected_elements_ f.
Definition false_positive_rate (f : BloomFilter) : float :=
  false_positive_rate_ f.
Definition bit_array_size (f : BloomFilter) : Z := bit_array_size_ f.
Definition hash_count (f : BloomFilter) : Z := hash_count_ f.

(** [memory_usage()]; [sizeof_this] is the size of the filter object itself, a constant of the
    compiled program. *)
Definition memory_usage (sizeof_this : Z) (f : BloomFilter) : Z :=
  wrap64 (bit_array_bytes_ f + sizeof_this).

(** [clear()] *)
Definition clear (f : BloomFilter) : BloomFilter :=
  with_inserted_count (with_bit_array f (map (fun _ => 0) (bit_array_ f))) 0.

(** [while (byte) { byte &= byte - 1; count++; }] on a [uint8_t]. Each
    round clears one of the eight bits, so eight rounds are the most the
    loop can make; [fuel] counts the rounds that are left. *)
Fixpoint kernighan (fuel : nat) (byte count : Z) : option Z :=
  if byte =? 0 then Some count
  else
    match fuel with
    | O => None
    | S fuel' =>
        kernighan fuel' (wrap8 (Z.land byte (byte - 1))) (wrap64 (count + 1))
    end.

(** The first loop of [count_set_bits], over the byte indices [idx]. *)
Fixpoint count_full_bytes (a : list Z) (idx : list nat) (count : Z)
  : option Z :=
  match idx with
  | [] => Some count
  | i :: idx' =>
      byte ← a !! i;
      count' ← kernighan 8 byte count;
      count_full_bytes a idx' count'
  end.

(** [count_set_bits()] *)
Definition count_set_bits (f : BloomFilter) : option Z :=
  let count := 0 in
  let full_bytes := bit_array_size_ f / 8 in
  count ← count_full_bytes (bit_array_ f) (seq 0 (Z.to_nat full_bytes)) count;
  let extra_bits := bit_array_size_ f mod 8 in
  if (0 <? extra_bits) && (full_bytes <? Z.of_nat (length (bit_array_ f)))
  then
    last_byte ← bit_array_ f !! Z.to_nat full_bytes;
    let mask := wrap8 (Z.shiftl 1 extra_bits - 1) in
    let last_byte := wrap8 (Z.land last_byte mask) in
    kernighan 8 last_byte count
  else Some count.

(** ** The representation invariant of a filter *)

Definition is_byte (b : Z) : Prop := 0 <= b < 256.

(** The bit array has a positive number of bits, [ceil(m / 8)] bytes
    (computed without wrap-around) each holding a [uint8_t], the counter
    holds a [size_t], and the hash engine reduces modulo the same [m]. *)
Record wf (f : BloomFilter) : Prop := mk_wf {
  wf_size : 0 < bit_array_size_ f /\ bit_array_size_ f + 7 < 2 ^ 64;
  wf_bytes : bit_array_bytes_ f = (bit_array_size_ f + 7) / 8;
  wf_length : Z.of_nat (length (bit_array_ f)) = bit_array_bytes_ f;
  wf_range : Forall is_byte (bit_array_ f);
  wf_count : 0 <= inserted_count_ f < 2 ^ 64;
  wf_hasher : dh_bit_array_size_ (hasher_ f) = bit_array_size_ f
}.

(** The fields that no operation after construction writes. *)
Definition same_parameters (f f' : BloomFilter) : Prop :=
  bit_array_size_ f' = bit_array_size_ f /\
  bit_array_bytes_ f' = bit_array_bytes_ f /\
  hash_count_ f' = hash_count_ f /\
  expected_elements_ f' = expected_elements_ f /\
  false_positive_rate_ f' = false_positive_rate_ f /\
  hasher_ f' = hasher_ f.

(** Bit [p] of a packed byte sequence: bit [p mod 8] of byte [p / 8]. *)
Definition bit_at (a : list Z) (p : Z) : bool :=
  match a !! Z.to_nat (p / 8) with
  | Some b => Z.testbit b (p mod 8)
  | None => false
  end.

(** The number of positions in [0, m) whose bit is set. *)
Definition bits_set (a : list Z) (m : Z) : Z :=
  Z.of_nat (length (List.filter (bit_at a) (seqZ 0 m))).

(** A run of [insert] calls. *)
Fixpoint insert_all (f : BloomFilter) (calls : list (option (list Byte.byte)))
  : option BloomFilter :=
  match calls with
  | [] => Some f
  | d :: ds => f' ← insert f d; insert_all f' ds
  end.

(** The probe positions of [data] in the filter [f]. *)
Definition probes (f : BloomFilter) (data : list Byte.byte) : list Z :=
  map (probe (hasher_ f) data) (seqZ 0 (hash_count_ f)).

Definition in_range (f : BloomFilter) (p : Z) : Prop :=
  0 <= p < bit_array_size_ f.

(** The calls of a run that reach the hashing code: a non-null pointer
    with a positive size. *)
Definition nonempty_call (d : option (list Byte.byte)) : bool :=
  match d with
  | Some (_ :: _) => true
  | _ => false
  end.

Definition nonempty_calls (calls : list (option (list Byte.byte))) : Z :=
  Z.of_nat (length (List.filter nonempty_call calls)).

(** The number of set bits of [b] among its bits [0 .. r). *)
Definition popcount (b r : Z) : Z :=
  Z.of_nat (length (List.filter (Z.testbit b) (seqZ 0 r))).

(** The checks run over all 256 bytes by the proofs about [kernighan]. *)
Definition kernighan_byte_ok (b : Z) : bool :=
  bool_decide (kernighan 8 b 0 = Some (popcount b 8)).

Definition kernighan_masked_ok (b r : Z) : bool :=
  bool_decide
    (kernighan 8 (wrap8 (Z.land b (wrap8 (Z.shiftl 1 r - 1)))) 0
     = Some (popcount b r)).

(** The index formula read over the integers: [(h1 + i * h2) mod m] with
    the sum and the product not reduced to 64 bits. Kept apart from
    [probe], which is what the code computes, to compare the two. *)
Definition probe_unbounded (dh : DoubleHasher) (data : list Byte.byte)
    (i : Z) : Z :=
  (base_h1 dh data + i * base_h2 dh data) mod dh_bit_array_size_ dh.

(** The two constructions of a filter leave these bounds. *)
Definition explicit_bounds (f : BloomFilter) : Prop :=
  (1 <= bit_array_size_ f) /\ (1 <= hash_count_ f <= MAX_HASH_FUNCTIONS).

Definition derived_bounds (f : BloomFilter) : Prop :=
  (MIN_BIT_ARRAY_SIZE <= bit_array_size_ f) /\
  (1 <= hash_count_ f <= MAX_HASH_FUNCTIONS).

(** [0 < p < 1] on binary64 numbers. *)
Definition rate_in_unit_interval (p : float) : Prop :=
  flt 0 p = true /\ flt p 1 = true.

(** Filters used to run the theorems on concrete data: ten bits, three
    probes; the second has bits set at positions 10 and above, which no
    [set_bit] call can produce but [count_set_bits] must ignore. *)
Definition example_filter : BloomFilter :=
  mkBloomFilter 10 2 3 100 0.5%float 0 [0; 0] (DoubleHasher_new 10).

Definition padded_filter : BloomFilter :=
  mkBloomFilter 10 2 3 100 0.5%float 7 [5; 255] (DoubleHasher_new 10).

(** A <cmath> whose functions are never reached by the constructions that
    use it below (capacity 0 in explicit mode). *)
Definition libm_unused : Libm :=
  mkLibm (fun x => x) (fun x => x) (fun x _ => x) (fun x => x) (fun x => x).

(** ** Further code of the three headers *)

(** [FNV1a::operator()]: the class is declared beside [MurmurHash3];
    [DoubleHasher] does not use it. *)
Module FNV1a.

Definition offset_basis : Z := 0xcbf29ce484222325.
Definition prime : Z := 0x100000001b3.

(** [hash ^= bytes[i]; hash *= 0x100000001b3ULL;] *)
Definition step (hash : Z) (b : Byte.byte) : Z :=
  let hash := Z.lxor hash (byte_val b) in
  wrap64 (hash * prime).

Definition hash (bytes : list Byte.byte) (seed : Z) : Z :=
  foldl step (Z.lxor offset_basis seed) bytes.

End FNV1a.

(** [DoubleHasher::hash(data, size, hash_index)] *)
Definition DoubleHasher_hash (dh : DoubleHasher) (data : list Byte.byte)
    (hash_index : Z) : option Z :=
  let h1 := MurmurHash3.hash data (hash1_ dh) in
  let h2 := MurmurHash3.hash data (hash2_ dh) in
  let h2 := if h2 mod 2 =? 0 then wrap64 (h2 + 1) else h2 in
  if dh_bit_array_size_ dh =? 0 then None
  else Some (wrap64 (h1 + wrap64 (hash_index * h2)) mod dh_bit_array_size_ dh).

(** [insert(const std::string&)] and [contains(const std::string&)]: the
    pointer of a [std::string] is never null, its size is its length. *)
Definition insert_string (f : BloomFilter) (str : String.string)
  : option BloomFilter :=
  insert f (Some (String.list_byte_of_string str)).

Definition contains_string (f : BloomFilter) (str : String.string)
  : option bool :=
  contains f (Some (String.list_byte_of_string str)).

(** The positions probed by one call, and by a run of calls, of [insert]:
    none for a null pointer or a size of 0. *)
Definition call_probes (f : BloomFilter) (d : option (list Byte.byte))
  : list Z :=
  match d with
  | Some (b :: bs) => probes f (b :: bs)
  | _ => []
  end.

Definition run_probes (f : BloomFilter)
    (calls : list (option (list Byte.byte))) : list Z :=
  concat (map (call_probes f) calls).

(** The inverse of [fmix64] on [uint64_t]: [k ^= k >> 33] undoes itself,
    and each multiplier is odd, so it has an inverse modulo [2^64]. *)
Definition fmix64_inv (k : Z) : Z :=
  let k := Z.lxor k (Z.shiftr k 33) in
  let k := wrap64 (k * 11291846944257947611) in
  let k := Z.lxor k (Z.shiftr k 33) in
  let k := wrap64 (k * 5725274745694666757) in
  let k := Z.lxor k (Z.shiftr k 33) in
  k.

(** The inverse of [FNV1a.step] for a given byte. *)
Definition fnv1a_unstep (hash : Z) (b : Byte.byte) : Z :=
  Z.lxor (wrap64 (hash * 14886173955864302971)) (byte_val b).

(** A <cmath> stand-in, right for the one call the derived-mode example
    makes with the rate 0.01: [log] returns ln(0.01); [ceil] and [round]
    leave the rounding to the conversion to [size_t]. *)
Definition libm_rate_001 : Libm :=
  mkLibm (fun _ => (-4.605170185988091)%float) (fun x => x)
    (fun x _ => x) (fun x => x) (fun x => x).

(** Further filters and inputs on which the properties are run: what
    [BloomFilter(10, 3, 0)] constructs; a filter of 16 bits; and what
    [BloomFilter(1000, 0.01)] constructs with [libm_rate_001]. *)
Definition fresh_filter : BloomFilter :=
  mkBloomFilter 10 2 3 0 0%float 0 [0; 0] (DoubleHasher_new 10).

Definition pow2_filter : BloomFilter :=
  mkBloomFilter 16 2 3 100 0.5%float 0 [0; 0] (DoubleHasher_new 16).

Definition derived_example : BloomFilter :=
  mkBloomFilter 9585 1199 6 1000 0.01%float 0 (resize0 1199)
    (DoubleHasher_new 9585).

Definition bytes_a : list Byte.byte := [Byte.x61].
Definition bytes_b : list Byte.byte := [Byte.x62].

(** ** Bytes and bits *)

Lemma wrap8_is_byte z : is_byte (wrap8 z).
Proof. unfold is_byte, wrap8. pose proof (Z.mod_pos_bound z (2 ^ 8)). lia. Qed.

Lemma testbit_shiftl_1 i j : 0 <= i -> Z.testbit (Z.shiftl 1 i) j = (i =? j).
Proof. intros Hi. rewrite Z.shiftl_1_l. by apply Z.pow2_bits_eqb. Qed.

(** The test of [get_bit] reads exactly bit [i] of the byte. *)
Lemma land_shiftl_1_testbit b i :
  0 <= i -> negb (Z.land b (Z.shiftl 1 i) =? 0) = Z.testbit b i.
Proof.
  intros Hi. destruct (Z.testbit b i) eqn:E.
  - destruct (Z.eqb_spec (Z.land b (Z.shiftl 1 i)) 0) as [H0|]; [|done].
    apply (f_equal (fun z => Z.testbit z i)) in H0.
    rewrite Z.land_spec, testbit_shiftl_1, E, Z.eqb_refl, Z.bits_0 in H0 by done.
    discriminate.
  - replace (Z.land b (Z.shiftl 1 i)) with 0; [done|].
    symmetry. apply Z.bits_inj'. intros n Hn.
    rewrite Z.land_spec, testbit_shiftl_1, Z.bits_0 by done.
    destruct (Z.eqb_spec i n) as [->|]; [by rewrite E | by rewrite andb_false_r].
Qed.

(** The store of [set_bit] sets bit [i] and keeps the other seven. *)
Lemma lor_shiftl_1_testbit b i j :
  0 <= i < 8 -> 0 <= j < 8 ->
  Z.testbit (wrap8 (Z.lor b (Z.shiftl 1 i))) j = Z.testbit b j || (i =? j).
Proof.
  intros Hi Hj. unfold wrap8.
  rewrite Z.mod_pow2_bits_low, Z.lor_spec, testbit_shiftl_1 by lia. done.
Qed.

(** ** The packed bit array *)

Ltac zdm := Z.div_mod_to_equations; lia.

Lemma byte_index_lt (m p : Z) (n : nat) :
  Z.of_nat n = (m + 7) / 8 -> 0 <= p < m -> (Z.to_nat (p / 8) < n)%nat.
Proof. intros Hn Hp. apply Nat2Z.inj_lt. rewrite Z2Nat.id by zdm. zdm. Qed.

Lemma position_eq (p q : Z) :
  0 <= p -> 0 <= q ->
  Z.to_nat (q / 8) = Z.to_nat (p / 8) -> q mod 8 = p mod 8 -> q = p.
Proof.
  intros Hp Hq Hd Hm. apply Z2Nat.inj in Hd; [|zdm..]. zdm.
Qed.

Lemma bit_at_insert (a : list Z) (p q b : Z) :
  0 <= p -> 0 <= q -> a !! Z.to_nat (p / 8) = Some b ->
  bit_at (<[Z.to_nat (p / 8) := wrap8 (Z.lor b (Z.shiftl 1 (p mod 8)))]> a) q
  = bit_at a q || (p =? q).
Proof.
  intros Hp Hq Hb. unfold bit_at.
  destruct (decide (Z.to_nat (q / 8) = Z.to_nat (p / 8))) as [Heq|Hne].
  - rewrite Heq, list_lookup_insert_eq, Hb by (by eapply lookup_lt_Some).
    rewrite lor_shiftl_1_testbit by zdm. f_equal.
    destruct (Z.eqb_spec (p mod 8) (q mod 8)) as [Hm|Hm],
             (Z.eqb_spec p q) as [Hpq|Hpq]; try done.
    + exfalso. apply Hpq. symmetry. by apply position_eq.
    + subst. done.
  - rewrite list_lookup_insert_ne by done.
    destruct (Z.eqb_spec p q) as [->|]; [done|]. by rewrite orb_false_r.
Qed.

Lemma get_bit_in_range f p :
  wf f -> 0 <= p < bit_array_size_ f ->
  get_bit f p = Some (bit_at (bit_array_ f) p).
Proof.
  intros Hwf Hp. unfold get_bit, bit_at.
  destruct (Z.leb_spec (bit_array_size_ f) p); [lia|].
  destruct (lookup_lt_is_Some_2 (bit_array_ f) (Z.to_nat (p / 8))) as [b Hb].
  { eapply byte_index_lt; [|done]. destruct Hwf. congruence. }
  rewrite Hb. simpl. by rewrite land_shiftl_1_testbit by zdm.
Qed.

Lemma get_bit_out_of_range f p :
  bit_array_size_ f <= p -> get_bit f p = Some false.
Proof. intros Hp. unfold get_bit. by destruct (Z.leb_spec (bit_array_size_ f) p); [|lia]. Qed.

Lemma with_bit_array_wf f a :
  wf f -> length a = length (bit_array_ f) -> Forall is_byte a ->
  wf (with_bit_array f a).
Proof. intros [] Hlen Ha. split; simpl; try done. by rewrite Hlen. Qed.

Lemma wrap64_range z : 0 <= wrap64 z < 2 ^ 64.
Proof. unfold wrap64. apply Z.mod_pos_bound. lia. Qed.

Lemma with_inserted_count_wf f c :
  wf f -> 0 <= c < 2 ^ 64 -> wf (with_inserted_count f c).
Proof. by intros []. Qed.

(** [set_bit] at a valid position succeeds, sets that bit and keeps every
    other bit and every other field. *)
Lemma set_bit_in_range f p :
  wf f -> 0 <= p < bit_array_size_ f ->
  exists a, set_bit f p = Some (with_bit_array f a) /\
            wf (with_bit_array f a) /\
            forall q, 0 <= q -> bit_at a q = bit_at (bit_array_ f) q || (p =? q).
Proof.
  intros Hwf Hp. unfold set_bit.
  destruct (Z.leb_spec (bit_array_size_ f) p); [lia|].
  destruct (lookup_lt_is_Some_2 (bit_array_ f) (Z.to_nat (p / 8))) as [b Hb].
  { eapply byte_index_lt; [|done]. destruct Hwf. congruence. }
  rewrite Hb. simpl. eexists. split; [done|]. split.
  - apply with_bit_array_wf; [done|by rewrite length_insert|].
    apply Forall_insert; [by destruct Hwf|apply wrap8_is_byte].
  - intros q Hq. apply bit_at_insert; [lia|done..].
Qed.

(** ** The hash engine *)

Lemma probe_in_range dh data i :
  0 < dh_bit_array_size_ dh -> 0 <= probe dh data i < dh_bit_array_size_ dh.
Proof. intros Hm. unfold probe. by apply Z.mod_pos_bound. Qed.

Lemma get_all_hashes_defined dh data k :
  0 < dh_bit_array_size_ dh ->
  get_all_hashes dh data k = Some (map (probe dh data) (seqZ 0 k)).
Proof.
  intros Hm. unfold get_all_hashes.
  destruct (Z.eqb_spec (dh_bit_array_size_ dh) 0); [lia|done].
Qed.

Lemma probes_in_range f data : wf f -> Forall (in_range f) (probes f data).
Proof.
  intros Hwf. apply Forall_forall. intros p Hp.
  apply list_elem_of_In, in_map_iff in Hp as (i & <- & _).
  unfold in_range. rewrite <- (wf_hasher f Hwf).
  apply probe_in_range. rewrite (wf_hasher f Hwf). by destruct Hwf as [[] ].
Qed.

Lemma get_all_hashes_wf f data :
  wf f -> get_all_hashes (hasher_ f) data (hash_count_ f) = Some (probes f data).
Proof.
  intros Hwf. apply get_all_hashes_defined.
  rewrite (wf_hasher f Hwf). by destruct Hwf as [[] ].
Qed.

(** ** Setting and testing a list of positions *)

Lemma same_parameters_refl f : same_parameters f f.
Proof. by repeat split. Qed.

Lemma same_parameters_trans f g h :
  same_parameters f g -> same_parameters g h -> same_parameters f h.
Proof. unfold same_parameters. intuition congruence. Qed.

Lemma set_bits_in_range f hs :
  wf f -> Forall (in_range f) hs ->
  exists f', set_bits f hs = Some f' /\ wf f' /\ same_parameters f f' /\
             inserted_count_ f' = inserted_count_ f /\
             forall q, 0 <= q ->
               bit_at (bit_array_ f') q
               = bit_at (bit_array_ f) q || bool_decide (q ∈ hs).
Proof.
  intros Hwf Hhs. revert f Hwf Hhs.
  induction hs as [|h hs IH]; intros f Hwf Hhs; simpl.
  - exists f. split; [done|]. split; [done|].
    split; [apply same_parameters_refl|]. split; [done|].
    intros q _. by rewrite orb_false_r.
  - apply Forall_cons in Hhs as [Hh Hhs].
    destruct (set_bit_in_range f h Hwf Hh) as (a & -> & Hwf' & Hbits). simpl.
    destruct (IH (with_bit_array f a) Hwf' Hhs)
      as (f' & -> & Hwf'' & Hsame & Hcnt & Hbits').
    exists f'. split; [done|]. split; [done|]. split; [done|]. split; [done|].
    intros q Hq. rewrite Hbits', Hbits by done. simpl.
    rewrite <- orb_assoc. f_equal.
    destruct (Z.eqb_spec h q) as [->|Hne].
    + simpl. symmetry. apply bool_decide_eq_true_2, elem_of_cons. by left.
    + simpl. apply bool_decide_ext. rewrite elem_of_cons.
      split; [by right|]. intros [?|?]; [congruence|done].
Qed.

Lemma all_bits_in_range f hs :
  wf f -> Forall (in_range f) hs ->
  all_bits f hs = Some (forallb (bit_at (bit_array_ f)) hs).
Proof.
  intros Hwf. induction 1 as [|h hs Hh Hhs IH]; [done|]. simpl.
  rewrite get_bit_in_range by done. simpl.
  by destruct (bit_at (bit_array_ f) h).
Qed.

(** ** insert and contains on a well-formed filter *)

Lemma length_nonempty {A} (l : list A) : l <> [] -> (Z.of_nat (length l) =? 0) = false.
Proof. destruct l; [done|]. intros _. simpl length. apply Z.eqb_neq. lia. Qed.

Lemma probes_same_parameters f f' data :
  same_parameters f f' -> probes f' data = probes f data.
Proof. intros (_ & _ & Hk & _ & _ & Hh). unfold probes. by rewrite Hk, Hh. Qed.

Lemma insert_nonempty f bytes :
  wf f -> bytes <> [] ->
  exists f', insert f (Some bytes) = Some f' /\ wf f' /\ same_parameters f f' /\
             inserted_count_ f' = wrap64 (inserted_count_ f + 1) /\
             forall q, 0 <= q ->
               bit_at (bit_array_ f') q
               = bit_at (bit_array_ f) q || bool_decide (q ∈ probes f bytes).
Proof.
  intros Hwf Hne. unfold insert.
  rewrite length_nonempty, get_all_hashes_wf by done. simpl.
  destruct (set_bits_in_range f (probes f bytes) Hwf (probes_in_range f bytes Hwf))
    as (f' & -> & Hwf' & Hsame & Hcnt & Hbits). simpl.
  eexists. split; [done|].
  split; [apply with_inserted_count_wf; [done|apply wrap64_range]|].
  split; [done|]. split; [simpl; by rewrite Hcnt|done].
Qed.

(** Every [insert] call on a well-formed filter returns, keeps the filter
    well formed, writes no sizing field and clears no bit. *)
Lemma insert_defined f d :
  wf f ->
  exists f', insert f d = Some f' /\ wf f' /\ same_parameters f f' /\
             forall q, 0 <= q -> bit_at (bit_array_ f) q = true ->
                       bit_at (bit_array_ f') q = true.
Proof.
  intros Hwf. destruct d as [bytes|].
  - destruct (decide (bytes = [])) as [->|Hne].
    + exists f. simpl. split; [done|]. split; [done|].
      split; [apply same_parameters_refl|done].
    + destruct (insert_nonempty f bytes Hwf Hne)
        as (f' & Hins & Hwf' & Hsame & _ & Hbits).
      exists f'. split; [done|]. split; [done|]. split; [done|].
      intros q Hq Hset. by rewrite Hbits, Hset.
  - exists f. split; [done|]. split; [done|].
    split; [apply same_parameters_refl|done].
Qed.

Lemma insert_all_defined f calls :
  wf f ->
  exists f', insert_all f calls = Some f' /\ wf f' /\ same_parameters f f' /\
             forall q, 0 <= q -> bit_at (bit_array_ f) q = true ->
                       bit_at (bit_array_ f') q = true.
Proof.
  revert f. induction calls as [|d ds IH]; intros f Hwf; simpl.
  - exists f. split; [done|]. split; [done|].
    split; [apply same_parameters_refl|done].
  - destruct (insert_defined f d Hwf) as (f1 & -> & Hwf1 & Hsame1 & Hbits1).
    simpl. destruct (IH f1 Hwf1) as (f2 & -> & Hwf2 & Hsame2 & Hbits2).
    exists f2. split; [done|]. split; [done|].
    split; [by eapply same_parameters_trans|]. auto.
Qed.

Lemma contains_nonempty f bytes :
  wf f -> bytes <> [] ->
  contains f (Some bytes)
  = Some (forallb (bit_at (bit_array_ f)) (probes f bytes)).
Proof.
  intros Hwf Hne. unfold contains.
  rewrite length_nonempty, get_all_hashes_wf by done. simpl.
  apply all_bits_in_range; [done|by apply probes_in_range].
Qed.

(** C1. No false negatives: on a well-formed filter, [insert x] for a
    non-empty byte sequence [x] returns, every run of further [insert]
    calls (with no [clear]) returns, and [contains x] is then true. *)
Theorem no_false_negatives (f : BloomFilter) (x : list Byte.byte)
    (more : list (option (list Byte.byte))) :
  wf f -> x <> [] ->
  exists f1 f2, insert f (Some x) = Some f1 /\
                insert_all f1 more = Some f2 /\
                contains f2 (Some x) = Some true.
Proof.
  intros Hwf Hx.
  destruct (insert_nonempty f x Hwf Hx) as (f1 & Hins & Hwf1 & Hsame1 & _ & Hbits1).
  destruct (insert_all_defined f1 more Hwf1) as (f2 & Hall & Hwf2 & Hsame2 & Hbits2).
  exists f1, f2. split; [done|]. split; [done|].
  rewrite contains_nonempty by done. f_equal.
  apply forallb_forall. intros p Hp. apply list_elem_of_In in Hp.
  rewrite (probes_same_parameters f1 f2), (probes_same_parameters f f1) in Hp by done.
  assert (0 <= p) as Hp0.
  { pose proof (probes_in_range f x Hwf) as Hr.
    rewrite Forall_forall in Hr. apply Hr in Hp. unfold in_range in Hp. lia. }
  apply Hbits2; [done|]. rewrite Hbits1 by done.
  rewrite bool_decide_eq_true_2 by done. apply orb_true_r.
Qed.


(** ** The insertion counter *)

Lemma wrap64_small z : 0 <= z < 2 ^ 64 -> wrap64 z = z.
Proof. intros Hz. unfold wrap64. by apply Z.mod_small. Qed.

Lemma wrap64_add_l a b : wrap64 (wrap64 a + b) = wrap64 (a + b).
Proof. unfold wrap64. by rewrite Zplus_mod_idemp_l. Qed.

Lemma insert_count f d f' :
  wf f -> insert f d = Some f' ->
  inserted_count_ f' = wrap64 (inserted_count_ f + Z.b2z (nonempty_call d)).
Proof.
  intros Hwf Hins. destruct d as [[|b bs]|]; simpl in *.
  - injection Hins as <-. rewrite Z.add_0_r, wrap64_small; [done|by destruct Hwf].
  - destruct (insert_nonempty f (b :: bs) Hwf) as (g & Hg & _ & _ & Hcnt & _); [done|].
    simpl in Hg. congruence.
  - injection Hins as <-. rewrite Z.add_0_r, wrap64_small; [done|by destruct Hwf].
Qed.

Lemma insert_all_count f calls :
  wf f ->
  exists f', insert_all f calls = Some f' /\
             inserted_count_ f' = wrap64 (inserted_count_ f + nonempty_calls calls).
Proof.
  revert f. induction calls as [|d ds IH]; intros f Hwf; simpl.
  - exists f. split; [done|]. unfold nonempty_calls. simpl.
    rewrite Z.add_0_r, wrap64_small; [done|by destruct Hwf].
  - destruct (insert_defined f d Hwf) as (f1 & Hins & Hwf1 & _).
    rewrite Hins. simpl. destruct (IH f1 Hwf1) as (f2 & -> & Hcnt).
    exists f2. split; [done|].
    rewrite Hcnt, (insert_count f d f1 Hwf Hins), wrap64_add_l. f_equal.
    unfold nonempty_calls. simpl. destruct (nonempty_call d); simpl length; simpl Z.b2z; lia.
Qed.

Lemma nonempty_calls_nonneg calls : 0 <= nonempty_calls calls.
Proof. unfold nonempty_calls. lia. Qed.

(** Setting a bit that is set already stores the byte it read. *)
Lemma lor_shiftl_1_set b i :
  is_byte b -> 0 <= i < 8 -> Z.testbit b i = true ->
  wrap8 (Z.lor b (Z.shiftl 1 i)) = b.
Proof.
  intros Hb Hi Hset. apply Z.bits_inj'. intros n Hn.
  destruct (Z.lt_ge_cases n 8) as [Hlt|Hge].
  - rewrite lor_shiftl_1_testbit by lia.
    destruct (Z.eqb_spec i n) as [->|]; [by rewrite Hset|by rewrite orb_false_r].
  - unfold wrap8. rewrite Z.mod_pow2_bits_high by lia.
    rewrite <- (Z.mod_small b (2 ^ 8)) by (unfold is_byte in Hb; lia).
    by rewrite Z.mod_pow2_bits_high by lia.
Qed.

Lemma with_bit_array_id f : with_bit_array f (bit_array_ f) = f.
Proof. by destruct f. Qed.

Lemma set_bit_already_set f p :
  wf f -> in_range f p -> bit_at (bit_array_ f) p = true -> set_bit f p = Some f.
Proof.
  intros Hwf Hp Hset. unfold set_bit, in_range, bit_at in *.
  destruct (Z.leb_spec (bit_array_size_ f) p); [lia|].
  destruct (bit_array_ f !! Z.to_nat (p / 8)) as [b|] eqn:Hb; [|done]. simpl.
  rewrite lor_shiftl_1_set; [|by eapply (proj1 (Forall_lookup _ _)); [apply Hwf|]|zdm|done].
  by rewrite list_insert_id, with_bit_array_id.
Qed.

Lemma set_bits_already_set f hs :
  wf f -> Forall (in_range f) hs ->
  forallb (bit_at (bit_array_ f)) hs = true -> set_bits f hs = Some f.
Proof.
  intros Hwf. induction 1 as [|h hs Hh Hhs IH]; [done|]. simpl.
  intros [H1 H2]%andb_true_iff. rewrite set_bit_already_set by done. simpl. auto.
Qed.

(** Re-inserting an element all of whose bits are set writes the counter
    and nothing else. *)
Lemma insert_present f x :
  wf f -> x <> [] -> contains f (Some x) = Some true ->
  insert f (Some x)
  = Some (with_inserted_count f (wrap64 (inserted_count_ f + 1))).
Proof.
  intros Hwf Hx Hc. rewrite contains_nonempty in Hc by done.
  injection Hc as Hc. unfold insert.
  rewrite length_nonempty, get_all_hashes_wf by done. simpl.
  rewrite set_bits_already_set; [done..|by apply probes_in_range|done].
Qed.

Lemma clear_wf f : wf f -> wf (clear f).
Proof.
  intros []. split; simpl; try done; try lia.
  - by rewrite length_map.
  - apply Forall_forall. intros b Hb.
    apply list_elem_of_In, in_map_iff in Hb as (? & <- & _). unfold is_byte. lia.
Qed.

(** C3. On a well-formed filter whose counter is below the largest
    [size_t], [insert] of a non-empty byte sequence adds exactly 1 to
    [size()], also when the element is present already and the call
    changes no bit; hence, from a counter of 0 (a filter just made or just
    cleared), [size()] after a run of [insert] calls is the number of
    calls with a non-empty byte sequence. *)
Theorem size_counts_insert_calls (f : BloomFilter) (x : list Byte.byte)
    (calls : list (option (list Byte.byte))) :
  wf f -> x <> [] -> size f + 1 < 2 ^ 64 -> nonempty_calls calls < 2 ^ 64 ->
  (exists f', insert f (Some x) = Some f' /\ size f' = size f + 1 /\
              (contains f (Some x) = Some true ->
               bit_array_ f' = bit_array_ f)) /\
  (size f = 0 ->
   exists f', insert_all f calls = Some f' /\ size f' = nonempty_calls calls) /\
  (exists f', insert_all (clear f) calls = Some f' /\
              size f' = nonempty_calls calls).
Proof.
  intros Hwf Hx Hmax Hcalls. pose proof (wf_count f Hwf) as Hc.
  pose proof (nonempty_calls_nonneg calls) as Hn. unfold size in *.
  split; [|split].
  - destruct (insert_nonempty f x Hwf Hx) as (f' & Hins & _ & _ & Hcnt & _).
    exists f'. split; [done|]. split.
    + rewrite Hcnt. apply wrap64_small. lia.
    + intros Hpresent. rewrite insert_present in Hins by done.
      by injection Hins as <-.
  - intros H0. destruct (insert_all_count f calls Hwf) as (f' & Hall & Hcnt).
    exists f'. split; [done|]. rewrite Hcnt, H0. apply wrap64_small. lia.
  - destruct (insert_all_count (clear f) calls (clear_wf f Hwf))
      as (f' & Hall & Hcnt).
    exists f'. split; [done|]. rewrite Hcnt. simpl. apply wrap64_small. lia.
Qed.

(** C4. [insert] with a null pointer or a size of 0 returns the filter as
    it was, so [size()], the bit array and [count_set_bits()] are what they
    were; [contains] with such an argument returns false. *)
Theorem empty_input_no_op (f : BloomFilter) :
  insert f None = Some f /\ insert f (Some []) = Some f /\
  (forall d f', d = None \/ d = Some [] -> insert f d = Some f' ->
     size f' = size f /\ bit_array_ f' = bit_array_ f /\
     count_set_bits f' = count_set_bits f) /\
  contains f None = Some false /\ contains f (Some []) = Some false.
Proof.
  split; [done|]. split; [done|]. split; [|done].
  intros d f' [-> | ->] [= <-]; done.
Qed.

(** ** Counting the set bits *)

Lemma kernighan_shift fuel b c :
  0 <= c -> c + Z.of_nat fuel < 2 ^ 64 ->
  kernighan fuel b c = Z.add c <$> kernighan fuel b 0.
Proof.
  revert b c. induction fuel as [|fuel IH]; intros b c Hc Hmax;
    cbn [kernighan].
  - destruct (b =? 0); simpl; [by rewrite Z.add_0_r|done].
  - destruct (b =? 0); [simpl; by rewrite Z.add_0_r|].
    rewrite (wrap64_small (c + 1)), (wrap64_small (0 + 1)) by lia.
    rewrite (IH _ (c + 1)), (IH _ (0 + 1)) by lia.
    destruct (kernighan fuel _ 0); simpl; [f_equal; lia|done].
Qed.

#[local] Arguments kernighan : simpl never.

Lemma forallb_seqZ (P : Z -> bool) (n z : Z) :
  forallb P (seqZ 0 n) = true -> 0 <= z < n -> P z = true.
Proof.
  intros HP Hz. rewrite forallb_forall in HP. apply HP.
  apply list_elem_of_In, elem_of_seqZ. lia.
Qed.

(** Eight rounds are enough for every [uint8_t], and the loop counts its
    set bits. *)
Lemma kernighan_byte b c :
  is_byte b -> 0 <= c -> c + 8 < 2 ^ 64 ->
  kernighan 8 b c = Some (c + popcount b 8).
Proof.
  intros Hb Hc Hmax. rewrite kernighan_shift by (simpl; lia).
  assert (forallb kernighan_byte_ok (seqZ 0 256) = true) as Hall
    by (vm_compute; reflexivity).
  apply (forallb_seqZ _ _ b) in Hall; [|done].
  apply bool_decide_eq_true_1 in Hall. by rewrite Hall.
Qed.

(** The same for the last byte after [last_byte &= mask]: only the bits
    below [extra_bits] are counted. *)
Lemma kernighan_masked b r c :
  is_byte b -> 0 < r < 8 -> 0 <= c -> c + 8 < 2 ^ 64 ->
  kernighan 8 (wrap8 (Z.land b (wrap8 (Z.shiftl 1 r - 1)))) c
  = Some (c + popcount b r).
Proof.
  intros Hb Hr Hc Hmax. rewrite kernighan_shift by (simpl; lia).
  assert (forallb (fun b => forallb (kernighan_masked_ok b) (seqZ 0 8))
            (seqZ 0 256) = true) as Hall by (vm_compute; reflexivity).
  apply (forallb_seqZ _ _ b) in Hall; [|done].
  apply (forallb_seqZ _ _ r) in Hall; [|lia].
  apply bool_decide_eq_true_1 in Hall. by rewrite Hall.
Qed.

Lemma popcount_bounds b r : 0 <= r -> 0 <= popcount b r <= r.
Proof.
  intros Hr. unfold popcount.
  pose proof (filter_length_le (Z.testbit b) (seqZ 0 r)) as Hle.
  rewrite length_seqZ in Hle. lia.
Qed.

Lemma bit_at_byte (a : list Z) (i : nat) (b j : Z) :
  a !! i = Some b -> 0 <= j < 8 ->
  bit_at a (8 * Z.of_nat i + j) = Z.testbit b j.
Proof.
  intros Hb Hj. unfold bit_at.
  replace (Z.to_nat ((8 * Z.of_nat i + j) / 8)) with i
    by (apply Nat2Z.inj; rewrite Z2Nat.id; zdm).
  rewrite Hb. f_equal. zdm.
Qed.

Lemma filter_length_fmap {A B} (f : B -> bool) (g : A -> B) (h : A -> bool)
    (l : list A) :
  (forall x, x ∈ l -> f (g x) = h x) ->
  length (List.filter f (g <$> l)) = length (List.filter h l).
Proof.
  induction l as [|x l IH]; intros Hfg; [done|].
  assert (length (List.filter f (g <$> l)) = length (List.filter h l)) as IH'
    by (apply IH; intros y Hy; apply Hfg, elem_of_cons; by right).
  change (g <$> x :: l) with (g x :: (g <$> l)). cbn [List.filter].
  rewrite (Hfg x) by (apply elem_of_cons; by left).
  destruct (h x); cbn [length]; by rewrite IH'.
Qed.

(** The set bits among the first [r] positions of byte [i]. *)
Lemma bits_of_byte (a : list Z) (i : nat) (b r : Z) :
  a !! i = Some b -> 0 <= r <= 8 ->
  Z.of_nat (length (List.filter (bit_at a) (seqZ (8 * Z.of_nat i) r)))
  = popcount b r.
Proof.
  intros Hb Hr. unfold popcount.
  replace (8 * Z.of_nat i) with (8 * Z.of_nat i + 0) by lia.
  rewrite <- fmap_add_seqZ. f_equal. apply filter_length_fmap.
  intros j Hj%elem_of_seqZ. apply bit_at_byte; [done|lia].
Qed.

Lemma bits_set_app (a : list Z) (n r : Z) :
  0 <= n -> 0 <= r ->
  bits_set a (n + r)
  = bits_set a n + Z.of_nat (length (List.filter (bit_at a) (seqZ n r))).
Proof.
  intros Hn Hr. unfold bits_set.
  rewrite seqZ_app, List.filter_app, length_app by done. rewrite Z.add_0_l. lia.
Qed.

Lemma bits_set_bounds a m : 0 <= m -> 0 <= bits_set a m <= m.
Proof.
  intros Hm. unfold bits_set.
  pose proof (filter_length_le (bit_at a) (seqZ 0 m)) as Hle.
  rewrite length_seqZ in Hle. lia.
Qed.

Lemma count_full_bytes_app a l1 l2 c :
  count_full_bytes a (l1 ++ l2) c
  = count_full_bytes a l1 c ≫= count_full_bytes a l2.
Proof.
  revert c. induction l1 as [|i l1 IH]; intros c; simpl; [done|].
  destruct (a !! i) as [b|]; simpl; [|done].
  destruct (kernighan 8 b c) as [c'|]; simpl; [apply IH|done].
Qed.

(** The first loop of [count_set_bits] counts the set bits of the first
    [q] bytes. *)
Lemma count_full_bytes_spec (a : list Z) (q : nat) :
  (q <= length a)%nat -> Forall is_byte a -> 8 * Z.of_nat q < 2 ^ 64 ->
  count_full_bytes a (seq 0 q) 0 = Some (bits_set a (8 * Z.of_nat q)).
Proof.
  intros Hq Ha. induction q as [|q IH]; intros Hmax; [done|].
  rewrite seq_S, count_full_bytes_app, IH by lia. simpl.
  destruct (lookup_lt_is_Some_2 a q) as [b Hb]; [lia|]. rewrite Hb. simpl.
  pose proof (bits_set_bounds a (8 * Z.of_nat q)).
  rewrite kernighan_byte;
    [|by eapply (proj1 (Forall_lookup _ _)); [apply Ha|]|lia..].
  simpl. f_equal.
  replace (8 * Z.of_nat (S q)) with (8 * Z.of_nat q + 8) by lia.
  rewrite bits_set_app by lia. f_equal. symmetry. by apply bits_of_byte.
Qed.

(** [count_set_bits()] on a well-formed filter: both loops return, and
    the count is that of the set bits at the positions below [m]. *)
Lemma count_set_bits_spec (f : BloomFilter) :
  wf f ->
  count_set_bits f = Some (bits_set (bit_array_ f) (bit_array_size_ f)).
Proof.
  intros Hwf. destruct Hwf as [[Hm Hmax] Hbytes Hlen Hrange _ _].
  rewrite Hbytes in Hlen. unfold count_set_bits.
  set (m := bit_array_size_ f) in *. set (a := bit_array_ f) in *.
  assert (m = 8 * Z.of_nat (Z.to_nat (m / 8)) + m mod 8) as Hsplit
    by (rewrite Z2Nat.id; zdm).
  rewrite count_full_bytes_spec; [|zdm|done|rewrite Z2Nat.id; zdm]. simpl.
  destruct (Z.ltb_spec 0 (m mod 8)) as [Hextra|Hextra]; simpl.
  - destruct (Z.ltb_spec (m / 8) (Z.of_nat (length a))); [|zdm]. simpl.
    destruct (lookup_lt_is_Some_2 a (Z.to_nat (m / 8))) as [b Hb]; [zdm|].
    rewrite Hb. simpl.
    pose proof (bits_set_bounds a (8 * Z.of_nat (Z.to_nat (m / 8)))).
    rewrite kernighan_masked;
      [|by eapply (proj1 (Forall_lookup _ _)); [apply Hrange|]|zdm|lia|lia].
    f_equal. rewrite Hsplit at 3. rewrite bits_set_app by zdm.
    f_equal. symmetry. apply bits_of_byte; [done|zdm].
  - f_equal. rewrite Hsplit at 2. f_equal. zdm.
Qed.

Lemma bits_set_ext (a a' : list Z) (m : Z) :
  (forall p, 0 <= p < m -> bit_at a' p = bit_at a p) ->
  bits_set a' m = bits_set a m.
Proof.
  intros Hsame. unfold bits_set. f_equal. f_equal.
  apply List.filter_ext_in. intros p Hp.
  apply list_elem_of_In, elem_of_seqZ in Hp. apply Hsame. lia.
Qed.

(** C7. On a well-formed filter [count_set_bits()] returns the number of
    positions in [0, m) whose bit is set, a number between 0 and [m]; two
    filters of [m] bits that agree on the positions below [m] return the
    same count, whatever the bits of the last, partial byte at positions
    [m] and above are. *)
Theorem count_set_bits_exact (f : BloomFilter) :
  wf f ->
  count_set_bits f = Some (bits_set (bit_array_ f) (bit_array_size_ f)) /\
  0 <= bits_set (bit_array_ f) (bit_array_size_ f) <= bit_array_size_ f /\
  forall g, wf g -> bit_array_size_ g = bit_array_size_ f ->
    (forall p, 0 <= p < bit_array_size_ f ->
       bit_at (bit_array_ g) p = bit_at (bit_array_ f) p) ->
    count_set_bits g = count_set_bits f.
Proof.
  intros Hwf. split; [by apply count_set_bits_spec|]. split.
  - apply bits_set_bounds. destruct Hwf as [[? ?] ]. lia.
  - intros g Hg Hm Hsame. rewrite !count_set_bits_spec by done.
    rewrite Hm. f_equal. by apply bits_set_ext.
Qed.

(** ** clear *)

Lemma bits_set_zero (a : list Z) (m : Z) : Forall (eq 0) a -> bits_set a m = 0.
Proof.
  intros Ha. unfold bits_set.
  rewrite (List.filter_ext_in (bit_at a) (fun _ => false));
    [by rewrite List.filter_false|].
  intros p _. unfold bit_at.
  destruct (a !! Z.to_nat (p / 8)) as [b|] eqn:Hb; [|done].
  rewrite Forall_lookup in Ha. rewrite <- (Ha _ _ Hb). apply Z.bits_0.
Qed.

Lemma clear_zeroes f : Forall (eq 0) (bit_array_ (clear f)).
Proof.
  simpl. apply Forall_forall. intros b Hb.
  by apply list_elem_of_In, in_map_iff in Hb as (? & <- & _).
Qed.

(** C8. [clear()] on a well-formed filter leaves a bit array of the same
    length holding only zero bytes, so [count_set_bits()] is 0; [size()]
    is 0; and [bit_array_size()], [hash_count()], [capacity()],
    [false_positive_rate()] and [memory_usage()] return what they returned
    before. *)
Theorem clear_resets (f : BloomFilter) (sizeof_this : Z) :
  wf f ->
  Forall (eq 0) (bit_array_ (clear f)) /\
  length (bit_array_ (clear f)) = length (bit_array_ f) /\
  count_set_bits (clear f) = Some 0 /\
  inserted_count_ (clear f) = 0 /\ size (clear f) = 0 /\
  same_parameters f (clear f) /\
  bit_array_size (clear f) = bit_array_size f /\
  hash_count (clear f) = hash_count f /\
  capacity (clear f) = capacity f /\
  false_positive_rate (clear f) = false_positive_rate f /\
  memory_usage sizeof_this (clear f) = memory_usage sizeof_this f.
Proof.
  intros Hwf. split; [apply clear_zeroes|]. split; [simpl; apply length_map|].
  split; [|by repeat split].
  rewrite count_set_bits_spec by by apply clear_wf.
  f_equal. apply bits_set_zero, clear_zeroes.
Qed.

(** ** Monotonic fill *)

Lemma filter_length_mono {A} (f g : A -> bool) (l : list A) :
  (forall x, x ∈ l -> f x = true -> g x = true) ->
  (length (List.filter f l) <= length (List.filter g l))%nat.
Proof.
  induction l as [|x l IH]; intros Hfg; [done|].
  assert (length (List.filter f l) <= length (List.filter g l))%nat as IH'
    by (apply IH; intros y Hy; apply Hfg, elem_of_cons; by right).
  pose proof (Hfg x (proj2 (elem_of_cons l x x) (or_introl eq_refl))) as Hx.
  cbn [List.filter]. destruct (f x), (g x); cbn [length]; lia.
Qed.

Lemma bits_set_mono (a a' : list Z) (m : Z) :
  (forall q, 0 <= q -> bit_at a q = true -> bit_at a' q = true) ->
  bits_set a m <= bits_set a' m.
Proof.
  intros Hmono. unfold bits_set. apply Nat2Z.inj_le, filter_length_mono.
  intros q Hq%elem_of_seqZ. apply Hmono. lia.
Qed.

Lemma get_bit_true f p :
  wf f -> 0 <= p ->
  get_bit f p = Some true <->
  p < bit_array_size_ f /\ bit_at (bit_array_ f) p = true.
Proof.
  intros Hwf Hp. destruct (Z.lt_ge_cases p (bit_array_size_ f)).
  - rewrite get_bit_in_range by done. split; [intros [= ->]; by split|].
    by intros [_ ->].
  - rewrite get_bit_out_of_range by done. split; [done|lia].
Qed.

Lemma monotone_run f f' :
  wf f -> wf f' -> same_parameters f f' ->
  (forall q, 0 <= q -> bit_at (bit_array_ f) q = true ->
             bit_at (bit_array_ f') q = true) ->
  (forall p, 0 <= p -> get_bit f p = Some true -> get_bit f' p = Some true) /\
  exists c c', count_set_bits f = Some c /\ count_set_bits f' = Some c' /\
               c <= c'.
Proof.
  intros Hwf Hwf' Hsame Hbits. split.
  - intros p Hp. rewrite !get_bit_true by done. destruct Hsame as [-> _].
    intros [? ?]. auto.
  - eexists _, _. rewrite !count_set_bits_spec by done.
    split; [done|]. split; [done|]. destruct Hsame as [-> _].
    by apply bits_set_mono.
Qed.

(** C9. On a well-formed filter, an [insert] call, and likewise any run of
    [insert] calls, returns a filter in which every bit that was set is
    still set and whose [count_set_bits()] is at least what it was. *)
Theorem monotonic_fill (f : BloomFilter) (d : option (list Byte.byte))
    (calls : list (option (list Byte.byte))) :
  wf f ->
  (exists f', insert f d = Some f' /\
     (forall p, 0 <= p -> get_bit f p = Some true ->
                get_bit f' p = Some true) /\
     exists c c', count_set_bits f = Some c /\ count_set_bits f' = Some c' /\
                  c <= c') /\
  (exists f', insert_all f calls = Some f' /\
     (forall p, 0 <= p -> get_bit f p = Some true ->
                get_bit f' p = Some true) /\
     exists c c', count_set_bits f = Some c /\ count_set_bits f' = Some c' /\
                  c <= c').
Proof.
  intros Hwf. split.
  - destruct (insert_defined f d Hwf) as (f' & Hins & Hwf' & Hsame & Hbits).
    exists f'. split; [done|]. by apply monotone_run.
  - destruct (insert_all_defined f calls Hwf)
      as (f' & Hins & Hwf' & Hsame & Hbits).
    exists f'. split; [done|]. by apply monotone_run.
Qed.

(** C10. In a filter of [m >= 1] bits whose hash engine reduces modulo
    [m], [get_all_hashes] returns, and every index it returns is below
    [m]: for each of them the test [position >= bit_array_size_] of
    [set_bit] and [get_bit] is false in every filter state of that size. *)
Theorem probe_indices_in_range (f : BloomFilter) (x : list Byte.byte) :
  1 <= bit_array_size_ f ->
  dh_bit_array_size_ (hasher_ f) = bit_array_size_ f ->
  exists hs,
    get_all_hashes (hasher_ f) x (hash_count_ f) = Some hs /\
    Forall (fun h => 0 <= h < bit_array_size_ f) hs /\
    forall g h, bit_array_size_ g = bit_array_size_ f -> h ∈ hs ->
                (bit_array_size_ g <=? h) = false.
Proof.
  intros Hm Hdh. eexists. split; [apply get_all_hashes_defined; lia|].
  assert (Forall (fun h => 0 <= h < bit_array_size_ f)
            (map (probe (hasher_ f) x) (seqZ 0 (hash_count_ f)))) as Hall.
  { apply Forall_forall. intros h Hh.
    apply list_elem_of_In, in_map_iff in Hh as (i & <- & _).
    rewrite <- Hdh. apply probe_in_range. lia. }
  split; [done|]. intros g h Hg Hh. rewrite Forall_forall in Hall.
  apply Hall in Hh. apply Z.leb_gt. lia.
Qed.

(** ** The probe indices *)

Lemma make_odd_is_odd h : make_odd h mod 2 = 1.
Proof.
  unfold make_odd, wrap64. change (2 ^ 64) with 18446744073709551616.
  destruct (Z.eqb_spec (h mod 2) 0); zdm.
Qed.

Lemma lxor_range a b n :
  0 <= n -> 0 <= a < 2 ^ n -> 0 <= b < 2 ^ n -> 0 <= Z.lxor a b < 2 ^ n.
Proof.
  intros Hn Ha Hb.
  assert (forall z i, 0 <= z < 2 ^ n -> n <= i -> Z.testbit z i = false)
    as Hhigh.
  { intros z i Hz Hi. rewrite <- (Z.mod_small z (2 ^ n)) by done.
    apply Z.mod_pow2_bits_high. lia. }
  replace (Z.lxor a b) with (Z.lxor a b mod 2 ^ n);
    [apply Z.mod_pos_bound; by apply Z.pow_pos_nonneg|].
  apply Z.bits_inj'. intros i Hi. destruct (Z.lt_ge_cases i n).
  - by rewrite Z.mod_pow2_bits_low.
  - rewrite Z.mod_pow2_bits_high by lia.
    by rewrite Z.lxor_spec, !Hhigh by done.
Qed.

Lemma shiftr_range a n r :
  0 <= r -> 0 <= a < 2 ^ n -> 0 <= Z.shiftr a r < 2 ^ n.
Proof.
  intros Hr Ha. rewrite Z.shiftr_div_pow2 by done.
  assert (0 < 2 ^ r) by (by apply Z.pow_pos_nonneg).
  split; [apply Z.div_pos; lia|].
  apply Z.le_lt_trans with a; [|lia]. apply Z.div_le_upper_bound; nia.
Qed.

(** Both base hashes are [uint64_t] values. *)
Lemma hash_range bytes seed : 0 <= MurmurHash3.hash bytes seed < 2 ^ 64.
Proof.
  unfold MurmurHash3.hash, MurmurHash3.fmix64.
  apply lxor_range; [lia|apply wrap64_range|].
  apply shiftr_range; [lia|apply wrap64_range].
Qed.

(** On a [uint64_t], [if (h2 % 2 == 0) h2 += 1;] is [h2 |= 1]. *)
Lemma make_odd_lor h : 0 <= h < 2 ^ 64 -> make_odd h = Z.lor h 1.
Proof.
  intros Hh. unfold make_odd.
  assert (Z.land h 1 = h mod 2) as Hland by (apply (Z.land_ones h 1); lia).
  destruct (Z.eqb_spec (h mod 2) 0) as [Heven|Hodd].
  - rewrite wrap64_small
      by (change (2 ^ 64) with 18446744073709551616 in *; zdm).
    rewrite <- Z.lxor_lor, <- Z.add_nocarry_lxor by congruence. done.
  - apply Z.bits_inj'. intros n Hn. rewrite Z.lor_spec.
    destruct (Z.eqb_spec n 0) as [->|Hn0].
    + rewrite Zmod_odd in Hodd. rewrite Z.bit0_odd.
      by destruct (Z.odd h).
    + replace (Z.testbit 1 n) with false; [by rewrite orb_false_r|].
      symmetry. change 1 with (2 ^ 0). rewrite Z.pow2_bits_eqb by lia.
      apply Z.eqb_neq. lia.
Qed.

Lemma probe_formula dh data i :
  probe dh data i
  = ((base_h1 dh data + i * base_h2 dh data) mod 2 ^ 64)
    mod dh_bit_array_size_ dh.
Proof. unfold probe, wrap64. by rewrite Zplus_mod_idemp_r. Qed.

(** C5, as the code has it. For a hash engine with [m >= 1] and a count
    [k >= 0], [get_all_hashes] takes the [uint64_t] values [h1] and [h2]
    from the two base hashes, makes [h2] odd ([h2 |= 1]), and returns
    exactly [k] indices, the [i]-th being [((h1 + i * h2) mod 2^64) mod m]:
    the sum and the product are 64-bit unsigned and wrap around before the
    reduction modulo [m]. The result is a function of the engine, the
    input and [k]. *)
Theorem get_all_hashes_indices (dh : DoubleHasher) (x : list Byte.byte)
    (k : Z) :
  1 <= dh_bit_array_size_ dh -> 0 <= k ->
  let h1 := MurmurHash3.hash x (hash1_ dh) in
  let h2 := make_odd (MurmurHash3.hash x (hash2_ dh)) in
  0 <= h1 < 2 ^ 64 /\
  h2 = Z.lor (MurmurHash3.hash x (hash2_ dh)) 1 /\ h2 mod 2 = 1 /\
  exists hs,
    get_all_hashes dh x k = Some hs /\
    Z.of_nat (length hs) = k /\
    (forall i, 0 <= i < k ->
       hs !! Z.to_nat i
       = Some (((h1 + i * h2) mod 2 ^ 64) mod dh_bit_array_size_ dh)) /\
    (forall hs', get_all_hashes dh x k = Some hs' -> hs' = hs).
Proof.
  intros Hm Hk h1 h2. split; [apply hash_range|].
  split; [apply make_odd_lor, hash_range|]. split; [apply make_odd_is_odd|].
  rewrite get_all_hashes_defined by lia. eexists. split; [done|].
  split; [by rewrite length_map, length_seqZ, Z2Nat.id|].
  split; [|by intros hs' [= <-]].
  intros i Hi. change (map ?g ?l) with (g <$> l).
  rewrite list_lookup_fmap, lookup_seqZ_lt by (rewrite Z2Nat.id; lia).
  simpl. rewrite Z2Nat.id, probe_formula by lia. reflexivity.
Qed.

(** C5, as stated, fails: with [m = 100] the third index returned for the
    one-byte input "a" is 80, while [(h1 + 2 * h2) mod 100] over the
    integers is 96, because [h1 + 2 * h2] exceeds [2^64]. *)
Lemma probe_wraps_before_reduction :
  exists hs,
    get_all_hashes (DoubleHasher_new 100) [Byte.x61] 3 = Some hs /\
    hs !! 2%nat = Some 80 /\
    probe_unbounded (DoubleHasher_new 100) [Byte.x61] 2 = 96 /\
    hs !! 2%nat <> Some (probe_unbounded (DoubleHasher_new 100) [Byte.x61] 2) /\
    2 ^ 64 <= base_h1 (DoubleHasher_new 100) [Byte.x61]
              + 2 * base_h2 (DoubleHasher_new 100) [Byte.x61].
Proof.
  exists [22; 59; 80]. split; [vm_compute; reflexivity|].
  split; [reflexivity|]. split; [vm_compute; reflexivity|].
  split; vm_compute; congruence.
Qed.

(** ** Construction *)

Lemma size_t_of_double_range d t : size_t_of_double d = Some t -> 0 <= t < 2 ^ 64.
Proof.
  unfold size_t_of_double. destruct (Prim2SF d) as [s|s| |s m e]; try done.
  - intros [= <-]. lia.
  - destruct s.
    + destruct (_ =? 0); [intros [= <-]; lia|done].
    + destruct (Z.ltb_spec (if 0 <=? e then Z.pos m * 2 ^ e
                            else Z.pos m / 2 ^ (- e)) (2 ^ 64)); [|done].
      intros [= <-]. split; [|done].
      destruct (Z.leb_spec 0 e); [lia|].
      apply Z.div_pos; [lia|]. apply Z.pow_pos_nonneg; lia.
Qed.

Lemma calculate_optimal_bit_array_size_min libm n p m :
  calculate_optimal_bit_array_size libm n p = Some m ->
  MIN_BIT_ARRAY_SIZE <= m.
Proof.
  unfold calculate_optimal_bit_array_size. destruct (n =? 0).
  - intros [= <-]. done.
  - destruct (size_t_of_double _); simpl; [|done]. intros [= <-]. lia.
Qed.

Lemma calculate_optimal_hash_count_range libm m n k :
  calculate_optimal_hash_count libm m n = Some k ->
  MIN_HASH_FUNCTIONS <= k <= MAX_HASH_FUNCTIONS.
Proof.
  unfold calculate_optimal_hash_count, MIN_HASH_FUNCTIONS, MAX_HASH_FUNCTIONS.
  destruct (n =? 0).
  - intros [= <-]. lia.
  - destruct (size_t_of_double _); simpl; [|done]. intros [= <-]. lia.
Qed.

(** A rate that passed both tests of the constructor and is a number lies
    strictly between 0 and 1. *)
Lemma rate_checks_pass p :
  fle p 0 = false -> fle 1 p = false -> is_nan p = false ->
  rate_in_unit_interval p.
Proof.
  unfold rate_in_unit_interval, fle, flt, is_nan.
  rewrite !FloatAxioms.leb_spec, !FloatAxioms.ltb_spec, FloatAxioms.eqb_spec.
  change (Prim2SF 0) with (S754_zero false).
  change (Prim2SF 1) with (S754_finite false 4503599627370496 (-52)).
  destruct (Prim2SF p) as [s|s| |s m e]; try destruct s; try done.
  unfold SFleb, SFltb, SFeqb, SFcompare.
  rewrite (Z.compare_antisym e (-52)).
  replace (Pos.compare_cont Eq 4503599627370496 m)
    with (CompOpp (Pos.compare_cont Eq m 4503599627370496))
    by apply Pos.compare_cont_antisym.
  generalize (Pos.compare_cont Eq m 4503599627370496) as c.
  generalize (e ?= -52) as c'. intros c' c _ Hge _. split; [done|].
  destruct c', c; simpl in *; congruence.
Qed.

Lemma set_bit_same_parameters f p f' :
  set_bit f p = Some f' -> same_parameters f f'.
Proof.
  unfold set_bit. destruct (_ <=? _).
  - intros [= <-]. apply same_parameters_refl.
  - destruct (_ !! _); simpl; [|done]. intros [= <-]. by repeat split.
Qed.

Lemma set_bits_same_parameters f hs f' :
  set_bits f hs = Some f' -> same_parameters f f'.
Proof.
  revert f. induction hs as [|h hs IH]; intros f; simpl.
  - intros [= <-]. apply same_parameters_refl.
  - destruct (set_bit f h) as [g|] eqn:Hg; simpl; [|done]. intros Hf'.
    eapply same_parameters_trans; [by eapply set_bit_same_parameters|by apply IH].
Qed.

Lemma insert_same_parameters f d f' :
  insert f d = Some f' -> same_parameters f f'.
Proof.
  destruct d as [bytes|]; simpl; [|intros [= <-]; apply same_parameters_refl].
  destruct (_ =? 0); [intros [= <-]; apply same_parameters_refl|].
  destruct (get_all_hashes _ _ _) as [hs|]; simpl; [|done].
  destruct (set_bits f hs) as [g|] eqn:Hg; simpl; [|done]. intros [= <-].
  apply set_bits_same_parameters in Hg. unfold same_parameters in *. simpl.
  done.
Qed.

Lemma clear_same_parameters f : same_parameters f (clear f).
Proof. by repeat split. Qed.

(** C2, as the code has it. A filter constructed in derived mode has
    [m >= 64], [1 <= k <= 32] and the requested rate as [p_target], which
    lies strictly between 0 and 1 when it is a number. A filter
    constructed in explicit mode from a size [m] and a count [k] has
    [m >= 1], [1 <= k <= 32] and the estimator's value as [p_target].
    [insert] and [clear] write none of [m], [k], [n_target], [p_target];
    [contains] and the accessors return a value and no filter. *)
Theorem construction_bounds (libm : Libm) :
  (forall n p f, BloomFilter_derived libm n p = Constructed f ->
     derived_bounds f /\ false_positive_rate_ f = p /\
     (is_nan p = false -> rate_in_unit_interval (false_positive_rate_ f))) /\
  (forall m k n f, 0 <= m -> 0 <= k ->
     BloomFilter_explicit libm m k n = Constructed f ->
     explicit_bounds f /\ bit_array_size_ f = m /\ hash_count_ f = k /\
     false_positive_rate_ f = estimate_false_positive_rate libm m k n) /\
  (forall f d f', insert f d = Some f' -> same_parameters f f') /\
  (forall f, same_parameters f (clear f)).
Proof.
  split; [|split; [|split]].
  - intros n p f. unfold BloomFilter_derived.
    destruct (n =? 0); [done|].
    destruct (fle p 0) eqn:Hp0; [done|]. destruct (fle 1 p) eqn:Hp1; [done|].
    simpl.
    destruct (calculate_optimal_bit_array_size libm n p) as [m|] eqn:Hm; [|done].
    destruct (calculate_optimal_hash_count libm m n) as [k|] eqn:Hk; [|done].
    intros [= <-]. simpl.
    apply calculate_optimal_bit_array_size_min in Hm.
    apply calculate_optimal_hash_count_range in Hk.
    split; [by split|]. split; [done|]. intros Hnan. by apply rate_checks_pass.
  - intros m k n f Hm Hk. unfold BloomFilter_explicit.
    destruct (Z.eqb_spec m 0); [done|].
    destruct (Z.eqb_spec k 0); [done|].
    destruct (Z.ltb_spec MAX_HASH_FUNCTIONS k); [done|]. simpl.
    intros [= <-]. simpl. split; [|done]. split; simpl; lia.
  - apply insert_same_parameters.
  - apply clear_same_parameters.
Qed.

(** C2, as stated, fails in explicit mode: [BloomFilter(10, 3, 0)] is
    constructed with [m = 10 < 64] and [p_target = 0]. *)
Lemma explicit_mode_small_filter :
  exists f, BloomFilter_explicit libm_unused 10 3 0 = Constructed f /\
            bit_array_size_ f = 10 /\ ~ (64 <= bit_array_size_ f) /\
            false_positive_rate_ f = 0%float /\
            ~ rate_in_unit_interval (false_positive_rate_ f).
Proof.
  eexists. split; [reflexivity|]. simpl. split; [done|]. split; [lia|].
  split; [done|]. intros [H0 _]. vm_compute in H0. discriminate.
Qed.

(** C6 at the failing input: a NaN rate is not inside (0, 1), yet the
    derived-mode constructor does not throw [std::invalid_argument] for
    it, whatever <cmath> does afterwards. *)
Theorem derived_mode_accepts_nan (libm : Libm) :
  BloomFilter_derived libm 1000 nan <> invalid_argument /\
  ~ rate_in_unit_interval nan.
Proof.
  split.
  - unfold BloomFilter_derived.
    change (1000 =? 0) with false. change (fle nan 0) with false.
    change (fle 1 nan) with false. simpl.
    destruct (calculate_optimal_bit_array_size libm 1000 nan); [|done].
    destruct (calculate_optimal_hash_count libm _ 1000); done.
  - intros [H0 _]. vm_compute in H0. discriminate.
Qed.

(** Binary64 has one NaN in this embedding. *)
Lemma is_nan_eq d : is_nan d = true -> d = nan.
Proof.
  unfold is_nan. rewrite FloatAxioms.eqb_spec. intros Hnan.
  rewrite <- (SF2Prim_Prim2SF d).
  destruct (Prim2SF d) as [s|s| |s m e]; [by destruct s..|done|].
  exfalso. unfold SFeqb, SFcompare in Hnan.
  rewrite Z.compare_refl, Pos.compare_cont_refl in Hnan. by destruct s.
Qed.

(** With a <cmath> that returns NaN for [log(NaN)] and for [ceil(NaN)], as
    IEC 60559 requires, the construction from a NaN rate reaches the
    conversion of NaN to [size_t], which is undefined. *)
Lemma derived_mode_nan_undefined (libm : Libm) :
  is_nan (c_log libm nan) = true -> is_nan (c_ceil libm nan) = true ->
  BloomFilter_derived libm 1000 nan = undefined_behaviour.
Proof.
  intros Hlog%is_nan_eq Hceil%is_nan_eq.
  unfold BloomFilter_derived, calculate_optimal_bit_array_size.
  change (1000 =? 0) with false. change (fle nan 0) with false.
  change (fle 1 nan) with false. cbn [orb]. rewrite Hlog.
  replace (- double_of_size_t 1000 * nan / LN_2_SQUARED)%float with nan
    by (vm_compute; reflexivity).
  rewrite Hceil. reflexivity.
Qed.

(** ** What the constructors check and what they establish *)


(** Derived mode throws exactly for a zero capacity or a rate for which
    one of the comparisons [p <= 0.0], [p >= 1.0] holds. *)
Lemma derived_invalid_iff libm n p :
  BloomFilter_derived libm n p = invalid_argument <->
  n = 0 \/ fle p 0 = true \/ fle 1 p = true.
Proof.
  unfold BloomFilter_derived.
  destruct (Z.eqb_spec n 0); [by split; [left|]|].
  destruct (fle p 0); [by split; [right; left|]|].
  destruct (fle 1 p); simpl; [by split; [right; right|]|].
  split; [|by intros [?|[?|?]]].
  destruct (calculate_optimal_bit_array_size libm n p); [|done].
  destruct (calculate_optimal_hash_count libm _ n); done.
Qed.

Lemma resize0_length n : 0 <= n -> Z.of_nat (length (resize0 n)) = n.
Proof. intros Hn. unfold resize0. rewrite length_replicate. lia. Qed.

Lemma new_filter_wf m k n p :
  0 < m -> m + 7 < 2 ^ 64 ->
  wf (mkBloomFilter m (wrap64 (m + 7) / 8) k n p 0
        (resize0 (wrap64 (m + 7) / 8)) (DoubleHasher_new m)).
Proof.
  intros Hm Hmax. rewrite wrap64_small by lia. split; simpl; try done.
  - apply resize0_length. zdm.
  - apply Forall_replicate. unfold is_byte. lia.
Qed.

(** A filter constructed in explicit mode from a size that leaves room
    for the rounding [m + 7] is well formed, empty and counts 0. *)
Lemma explicit_constructed_wf libm m k n f :
  0 <= m -> m + 7 < 2 ^ 64 ->
  BloomFilter_explicit libm m k n = Constructed f ->
  wf f /\ size f = 0 /\ Forall (eq 0) (bit_array_ f).
Proof.
  intros Hm Hmax. unfold BloomFilter_explicit.
  destruct (Z.eqb_spec m 0); [done|]. destruct (_ || _); [done|].
  intros [= <-]. split; [apply new_filter_wf; lia|]. split; [done|].
  apply Forall_replicate_eq.
Qed.

Lemma digits2_pos_bound m : Z.pos m < 2 ^ Z.pos (digits2_pos m).
Proof.
  induction m as [m IH|m IH|]; simpl digits2_pos; [| |done].
  - rewrite Pos2Z.inj_succ, Z.pow_succ_r, Pos2Z.inj_xI by lia. lia.
  - rewrite Pos2Z.inj_succ, Z.pow_succ_r, Pos2Z.inj_xO by lia. lia.
Qed.

(** A binary64 number has 53 significant bits, so a [size_t] obtained from
    one is at most [2^64 - 2048]. *)
Lemma size_t_of_double_max d t : size_t_of_double d = Some t -> t + 2048 <= 2 ^ 64.
Proof.
  unfold size_t_of_double. pose proof (Prim2SF_valid d) as Hvalid.
  destruct (Prim2SF d) as [s|s| |s m e]; try done.
  - intros [= <-]. lia.
  - destruct s; [destruct (_ =? 0); [intros [= <-]; lia|done]|].
    simpl in Hvalid. apply andb_true_iff in Hvalid as [Hcanon _].
    apply Z.eqb_eq in Hcanon. unfold fexp, emin, prec, emax in Hcanon.
    pose proof (digits2_pos_bound m) as Hdigits.
    assert (Z.pos m < 2 ^ 53) as Hm.
    { eapply Z.lt_le_trans; [exact Hdigits|]. apply Z.pow_le_mono_r; lia. }
    clear Hcanon Hdigits.
    destruct (Z.leb_spec 0 e) as [He|He].
    + destruct (Z.ltb_spec (Z.pos m * 2 ^ e) (2 ^ 64)) as [Hlt|]; [|done].
      intros [= <-]. destruct (Z.le_gt_cases e 10) as [Hsmall|Hbig].
      * assert (2 ^ e <= 2 ^ 10) by (apply Z.pow_le_mono_r; lia).
        assert (0 < 2 ^ e) by (apply Z.pow_pos_nonneg; lia). nia.
      * replace e with ((e - 11) + 11) in * by lia.
        rewrite Z.pow_add_r in * by lia.
        assert (0 < 2 ^ (e - 11)) by (apply Z.pow_pos_nonneg; lia).
        change (2 ^ 11) with 2048 in *. change (2 ^ 64) with (2 ^ 53 * 2048) in *.
        nia.
    + destruct (Z.ltb_spec (Z.pos m / 2 ^ (- e)) (2 ^ 64)); [|done].
      intros [= <-].
      assert (0 < 2 ^ (- e)) by (apply Z.pow_pos_nonneg; lia).
      assert (Z.pos m / 2 ^ (- e) <= Z.pos m)
        by (apply Z.div_le_upper_bound; nia).
      change (2 ^ 64) with (2 ^ 53 * 2048). lia.
Qed.

Lemma calculate_optimal_bit_array_size_max libm n p m :
  calculate_optimal_bit_array_size libm n p = Some m -> m + 7 < 2 ^ 64.
Proof.
  unfold calculate_optimal_bit_array_size, MIN_BIT_ARRAY_SIZE.
  destruct (n =? 0); [intros [= <-]; done|].
  destruct (size_t_of_double _) as [t|] eqn:Ht; simpl; [|done].
  apply size_t_of_double_max in Ht. intros [= <-]. lia.
Qed.

(** Every filter constructed in derived mode is well formed, empty and
    counts 0. *)
Lemma derived_constructed_wf libm n p f :
  BloomFilter_derived libm n p = Constructed f ->
  wf f /\ size f = 0 /\ Forall (eq 0) (bit_array_ f).
Proof.
  unfold BloomFilter_derived.
  destruct (n =? 0); [done|]. destruct (_ || _); [done|].
  destruct (calculate_optimal_bit_array_size libm n p) as [m|] eqn:Hm; [|done].
  destruct (calculate_optimal_hash_count libm m n) as [k|]; [|done].
  pose proof (calculate_optimal_bit_array_size_min _ _ _ _ Hm) as Hmin.
  apply calculate_optimal_bit_array_size_max in Hm.
  unfold MIN_BIT_ARRAY_SIZE in Hmin. intros [= <-].
  split; [apply new_filter_wf; lia|]. split; [done|].
  apply Forall_replicate_eq.
Qed.

(** [insert] on a filter whose bit array is empty although [m >= 1]
    indexes the vector out of range at its first probe. *)
Lemma insert_empty_array f x :
  bit_array_ f = [] -> 0 < bit_array_size_ f -> 0 < hash_count_ f ->
  dh_bit_array_size_ (hasher_ f) = bit_array_size_ f -> x <> [] ->
  insert f (Some x) = None.
Proof.
  intros Ha Hm Hk Hdh Hx. unfold insert.
  rewrite length_nonempty, get_all_hashes_defined by (done || lia).
  rewrite seqZ_cons by lia. simpl. unfold set_bit at 1.
  pose proof (probe_in_range (hasher_ f) x 0) as Hp. rewrite Hdh in Hp.
  destruct (Z.leb_spec (bit_array_size_ f) (probe (hasher_ f) x 0)); [lia|].
  by rewrite Ha.
Qed.

(** The sum [m + 7] of the constructors wraps for the seven largest
    sizes: explicit mode then builds a filter with too short a bit array,
    on which [insert] indexes the vector out of range. *)
Lemma explicit_mode_size_wraps :
  exists f, BloomFilter_explicit libm_unused (2 ^ 64 - 1) 1 0 = Constructed f /\
            bit_array_ f = [] /\ insert f (Some [Byte.x61]) = None.
Proof.
  eexists. split; [reflexivity|].
  assert (resize0 (wrap64 (2 ^ 64 - 1 + 7) / 8) = []) as Ha
    by (vm_compute; reflexivity).
  split; [exact Ha|]. by apply insert_empty_array.
Qed.

(** [contains] and [count_set_bits] return on every well-formed filter. *)
Lemma contains_defined f d : wf f -> exists b, contains f d = Some b.
Proof.
  intros Hwf. destruct d as [bytes|]; [|by eexists].
  destruct (decide (bytes = [])) as [->|Hne]; [by eexists|].
  eexists. by apply contains_nonempty.
Qed.

(** ** The theorems on concrete filters *)

Lemma example_filter_wf : wf example_filter.
Proof.
  split; simpl; try done; try lia.
  repeat constructor; unfold is_byte; lia.
Defined.

Lemma padded_filter_wf : wf padded_filter.
Proof.
  split; simpl; try done; try lia.
  repeat constructor; unfold is_byte; lia.
Defined.

Lemma no_false_negatives_witness :
  wf example_filter /\ [Byte.x61] <> [] /\
  exists f1 f2,
    insert example_filter (Some [Byte.x61]) = Some f1 /\
    insert_all f1 [Some [Byte.x62]; None; Some []] = Some f2 /\
    contains f2 (Some [Byte.x61]) = Some true.
Proof.
  split; [exact example_filter_wf|]. split; [discriminate|].
  apply (no_false_negatives example_filter [Byte.x61]
           [Some [Byte.x62]; None; Some []]).
  - exact example_filter_wf.
  - discriminate.
Defined.

Lemma size_counts_insert_calls_witness :
  wf padded_filter /\ [Byte.x61] <> [] /\ size padded_filter + 1 < 2 ^ 64 /\
  nonempty_calls [Some [Byte.x61]; None; Some [Byte.x61]; Some []] < 2 ^ 64 /\
  (exists f', insert padded_filter (Some [Byte.x61]) = Some f' /\
              size f' = size padded_filter + 1 /\
              (contains padded_filter (Some [Byte.x61]) = Some true ->
               bit_array_ f' = bit_array_ padded_filter)) /\
  (size padded_filter = 0 ->
   exists f', insert_all padded_filter
                [Some [Byte.x61]; None; Some [Byte.x61]; Some []] = Some f' /\
              size f'
              = nonempty_calls
                  [Some [Byte.x61]; None; Some [Byte.x61]; Some []]) /\
  (exists f', insert_all (clear padded_filter)
                [Some [Byte.x61]; None; Some [Byte.x61]; Some []] = Some f' /\
              size f'
              = nonempty_calls
                  [Some [Byte.x61]; None; Some [Byte.x61]; Some []]).
Proof.
  split; [exact padded_filter_wf|]. split; [discriminate|].
  split; [vm_compute; reflexivity|]. split; [vm_compute; reflexivity|].
  apply (size_counts_insert_calls padded_filter [Byte.x61]
           [Some [Byte.x61]; None; Some [Byte.x61]; Some []]).
  - exact padded_filter_wf.
  - discriminate.
  - vm_compute; reflexivity.
  - vm_compute; reflexivity.
Defined.

Lemma get_all_hashes_indices_witness :
  1 <= dh_bit_array_size_ (DoubleHasher_new 100) /\ 0 <= 3 /\
  let h1 := MurmurHash3.hash [Byte.x61] (hash1_ (DoubleHasher_new 100)) in
  let h2 := make_odd (MurmurHash3.hash [Byte.x61]
                        (hash2_ (DoubleHasher_new 100))) in
  0 <= h1 < 2 ^ 64 /\
  h2 = Z.lor (MurmurHash3.hash [Byte.x61] (hash2_ (DoubleHasher_new 100))) 1 /\
  h2 mod 2 = 1 /\
  exists hs,
    get_all_hashes (DoubleHasher_new 100) [Byte.x61] 3 = Some hs /\
    Z.of_nat (length hs) = 3 /\
    (forall i, 0 <= i < 3 ->
       hs !! Z.to_nat i
       = Some (((h1 + i * h2) mod 2 ^ 64)
               mod dh_bit_array_size_ (DoubleHasher_new 100))) /\
    (forall hs', get_all_hashes (DoubleHasher_new 100) [Byte.x61] 3 = Some hs' ->
                 hs' = hs).
Proof.
  split; [simpl; lia|]. split; [lia|].
  apply (get_all_hashes_indices (DoubleHasher_new 100) [Byte.x61] 3).
  - simpl; lia.
  - lia.
Defined.

Lemma count_set_bits_exact_witness :
  wf padded_filter /\
  count_set_bits padded_filter
  = Some (bits_set (bit_array_ padded_filter) (bit_array_size_ padded_filter)) /\
  0 <= bits_set (bit_array_ padded_filter) (bit_array_size_ padded_filter)
    <= bit_array_size_ padded_filter /\
  forall g, wf g -> bit_array_size_ g = bit_array_size_ padded_filter ->
    (forall p, 0 <= p < bit_array_size_ padded_filter ->
       bit_at (bit_array_ g) p = bit_at (bit_array_ padded_filter) p) ->
    count_set_bits g = count_set_bits padded_filter.
Proof.
  split; [exact padded_filter_wf|].
  apply (count_set_bits_exact padded_filter). exact padded_filter_wf.
Defined.

Lemma clear_resets_witness :
  wf padded_filter /\
  Forall (eq 0) (bit_array_ (clear padded_filter)) /\
  length (bit_array_ (clear padded_filter)) = length (bit_array_ padded_filter) /\
  count_set_bits (clear padded_filter) = Some 0 /\
  inserted_count_ (clear padded_filter) = 0 /\ size (clear padded_filter) = 0 /\
  same_parameters padded_filter (clear padded_filter) /\
  bit_array_size (clear padded_filter) = bit_array_size padded_filter /\
  hash_count (clear padded_filter) = hash_count padded_filter /\
  capacity (clear padded_filter) = capacity padded_filter /\
  false_positive_rate (clear padded_filter) = false_positive_rate padded_filter /\
  memory_usage 112 (clear padded_filter) = memory_usage 112 padded_filter.
Proof.
  split; [exact padded_filter_wf|].
  apply (clear_resets padded_filter 112). exact padded_filter_wf.
Defined.

Lemma monotonic_fill_witness :
  wf example_filter /\
  (exists f', insert example_filter (Some [Byte.x61]) = Some f' /\
     (forall p, 0 <= p -> get_bit example_filter p = Some true ->
                get_bit f' p = Some true) /\
     exists c c', count_set_bits example_filter = Some c /\
                  count_set_bits f' = Some c' /\ c <= c') /\
  (exists f', insert_all example_filter [Some [Byte.x61]; Some [Byte.x62]]
              = Some f' /\
     (forall p, 0 <= p -> get_bit example_filter p = Some true ->
                get_bit f' p = Some true) /\
     exists c c', count_set_bits example_filter = Some c /\
                  count_set_bits f' = Some c' /\ c <= c').
Proof.
  split; [exact example_filter_wf|].
  apply (monotonic_fill example_filter (Some [Byte.x61])
           [Some [Byte.x61]; Some [Byte.x62]]).
  exact example_filter_wf.
Defined.

Lemma probe_indices_in_range_witness :
  1 <= bit_array_size_ example_filter /\
  dh_bit_array_size_ (hasher_ example_filter) = bit_array_size_ example_filter /\
  exists hs,
    get_all_hashes (hasher_ example_filter) [Byte.x61]
      (hash_count_ example_filter) = Some hs /\
    Forall (fun h => 0 <= h < bit_array_size_ example_filter) hs /\
    forall g h, bit_array_size_ g = bit_array_size_ example_filter -> h ∈ hs ->
                (bit_array_size_ g <=? h) = false.
Proof.
  split; [simpl; lia|]. split; [reflexivity|].
  apply (probe_indices_in_range example_filter [Byte.x61]).
  - simpl; lia.
  - reflexivity.
Defined.

(** The same filters, evaluated. *)
Example padded_filter_counts_four : count_set_bits padded_filter = Some 4.
Proof. vm_compute. reflexivity. Qed.

Example example_filter_insert_a :
  insert example_filter (Some [Byte.x61])
  = Some (mkBloomFilter 10 2 3 100 0.5%float 1 [5; 2] (DoubleHasher_new 10)).
Proof. vm_compute. reflexivity. Qed.

(** * Further properties of the code *)

(** ** set_bit and get_bit *)

(** [set_bit] then [get_bit]: at a valid position the bit reads back as
    set, every other position reads as before, and setting the bit again
    changes nothing; at a position [>= m] the store is skipped and the
    read is false. *)
Theorem set_bit_get_bit (f : BloomFilter) (p : Z) :
  wf f -> 0 <= p ->
  exists f', set_bit f p = Some f' /\
    (p < bit_array_size_ f -> get_bit f' p = Some true) /\
    (bit_array_size_ f <= p -> f' = f /\ get_bit f' p = Some false) /\
    (forall q, 0 <= q -> q <> p -> get_bit f' q = get_bit f q) /\
    set_bit f' p = Some f'.
Proof.
  intros Hwf Hp. destruct (Z.lt_ge_cases p (bit_array_size_ f)) as [Hlt|Hge].
  - destruct (set_bit_in_range f p Hwf (conj Hp Hlt)) as (a & Hset & Hwf' & Hbits).
    exists (with_bit_array f a). split; [done|].
    assert (bit_at a p = true) as Hpa
      by (rewrite Hbits, Z.eqb_refl by done; apply orb_true_r).
    split; [intros _; rewrite get_bit_in_range by done; simpl; by f_equal|].
    split; [lia|]. split.
    + intros q Hq Hne.
      destruct (Z.lt_ge_cases q (bit_array_size_ f)).
      * rewrite !get_bit_in_range by done. simpl. rewrite Hbits by done.
        destruct (Z.eqb_spec p q); [congruence|]. by rewrite orb_false_r.
      * by rewrite !get_bit_out_of_range.
    + by apply set_bit_already_set.
  - exists f. unfold set_bit. destruct (Z.leb_spec (bit_array_size_ f) p); [|lia].
    split; [done|]. split; [lia|].
    split; [intros _; split; [done|by apply get_bit_out_of_range]|]. done.
Qed.

(** ** contains *)

Lemma forallb_true_iff {A} (g : A -> bool) (l : list A) :
  forallb g l = true <-> forall x, x ∈ l -> g x = true.
Proof.
  rewrite forallb_forall. split; intros H x Hx; apply H; by apply list_elem_of_In.
Qed.

Lemma forallb_false_iff {A} (g : A -> bool) (l : list A) :
  forallb g l = false <-> exists x, x ∈ l /\ g x = false.
Proof.
  induction l as [|y l IH]; simpl.
  - split; [done|]. by intros (x & Hx%not_elem_of_nil & _).
  - rewrite andb_false_iff, IH. split.
    + intros [Hy|(x & Hx & Hgx)]; [exists y|exists x];
        (split; [apply elem_of_cons; auto|done]).
    + intros (x & [->|Hx]%elem_of_cons & Hgx); [by left|right; eauto].
Qed.

Lemma get_bit_probe f x p :
  wf f -> p ∈ probes f x -> get_bit f p = Some (bit_at (bit_array_ f) p).
Proof.
  intros Hwf Hp. apply get_bit_in_range; [done|].
  pose proof (probes_in_range f x Hwf) as Hr. rewrite Forall_forall in Hr.
  by apply Hr.
Qed.

(** [contains] answers true exactly when every probed bit is set, and
    false exactly when some probed bit is clear; the early return of the
    loop does not change the answer. *)
Theorem contains_iff_all_probes_set (f : BloomFilter) (x : list Byte.byte) :
  wf f -> x <> [] ->
  (contains f (Some x) = Some true <->
   forall p, p ∈ probes f x -> get_bit f p = Some true) /\
  (contains f (Some x) = Some false <->
   exists p, p ∈ probes f x /\ get_bit f p = Some false).
Proof.
  intros Hwf Hx. rewrite contains_nonempty by done. split.
  - split.
    + intros [= Hall]. rewrite forallb_true_iff in Hall. intros p Hp.
      rewrite (get_bit_probe f x) by done. f_equal. auto.
    + intros Hall. f_equal. apply forallb_true_iff. intros p Hp.
      specialize (Hall p Hp). rewrite (get_bit_probe f x) in Hall by done.
      congruence.
  - split.
    + intros [= (p & Hp & Hbit)%forallb_false_iff]. exists p. split; [done|].
      rewrite (get_bit_probe f x) by done. by f_equal.
    + intros (p & Hp & Hbit). f_equal. apply forallb_false_iff.
      exists p. split; [done|]. rewrite (get_bit_probe f x) in Hbit by done.
      congruence.
Qed.

(** ** What a run of insert calls writes *)

Lemma call_probes_same_parameters f f' d :
  same_parameters f f' -> call_probes f' d = call_probes f d.
Proof.
  intros Hsame. destruct d as [[|b bs]|]; try done.
  by apply probes_same_parameters.
Qed.

Lemma run_probes_same_parameters f f' calls :
  same_parameters f f' -> run_probes f' calls = run_probes f calls.
Proof.
  intros Hsame. unfold run_probes. f_equal.
  apply map_ext. intros d. by apply call_probes_same_parameters.
Qed.

Lemma insert_bits f d :
  wf f ->
  exists f', insert f d = Some f' /\ wf f' /\ same_parameters f f' /\
    forall q, 0 <= q ->
      bit_at (bit_array_ f') q
      = bit_at (bit_array_ f) q || bool_decide (q ∈ call_probes f d).
Proof.
  intros Hwf. destruct d as [[|b bs]|].
  - exists f. split; [done|]. split; [done|].
    split; [apply same_parameters_refl|]. intros q _. by rewrite orb_false_r.
  - destruct (insert_nonempty f (b :: bs) Hwf)
      as (f' & Hins & Hwf' & Hsame & _ & Hbits); [done|]. by exists f'.
  - exists f. split; [done|]. split; [done|].
    split; [apply same_parameters_refl|]. intros q _. by rewrite orb_false_r.
Qed.

Lemma insert_all_bits f calls :
  wf f ->
  exists f', insert_all f calls = Some f' /\ wf f' /\ same_parameters f f' /\
    forall q, 0 <= q ->
      bit_at (bit_array_ f') q
      = bit_at (bit_array_ f) q || bool_decide (q ∈ run_probes f calls).
Proof.
  revert f. induction calls as [|d ds IH]; intros f Hwf.
  - exists f. split; [done|]. split; [done|].
    split; [apply same_parameters_refl|]. intros q _. by rewrite orb_false_r.
  - destruct (insert_bits f d Hwf) as (f1 & Hins & Hwf1 & Hsame1 & Hbits1).
    destruct (IH f1 Hwf1) as (f2 & Hall & Hwf2 & Hsame2 & Hbits2).
    exists f2. simpl. rewrite Hins. simpl. split; [done|]. split; [done|].
    split; [by eapply same_parameters_trans|].
    intros q Hq. rewrite Hbits2, Hbits1 by done.
    rewrite (run_probes_same_parameters f f1) by done.
    rewrite <- orb_assoc. f_equal. unfold run_probes. simpl.
    destruct (decide (q ∈ call_probes f d)) as [Hin|Hout].
    + rewrite (bool_decide_eq_true_2 _ Hin). simpl. symmetry.
      apply bool_decide_eq_true_2, elem_of_app. by left.
    + rewrite (bool_decide_eq_false_2 _ Hout). simpl.
      apply bool_decide_ext. rewrite elem_of_app. tauto.
Qed.

Lemma zero_array_bit_at (a : list Z) (q : Z) :
  Forall (eq 0) a -> bit_at a q = false.
Proof.
  intros Ha. unfold bit_at.
  destruct (a !! Z.to_nat (q / 8)) as [b|] eqn:Hb; [|done].
  rewrite Forall_lookup in Ha. rewrite <- (Ha _ _ Hb). apply Z.bits_0.
Qed.

Lemma elem_of_run_probes f calls q :
  q ∈ run_probes f calls <->
  exists x, Some x ∈ calls /\ x <> [] /\ q ∈ probes f x.
Proof.
  unfold run_probes. induction calls as [|d ds IH]; simpl.
  - split; [by intros ?%not_elem_of_nil|].
    by intros (x & ?%not_elem_of_nil & _).
  - rewrite elem_of_app, IH. split.
    + intros [Hq|(x & Hx & Hne & Hq)].
      * destruct d as [[|b bs]|]; simpl in Hq; try by apply not_elem_of_nil in Hq.
        exists (b :: bs). split; [apply elem_of_cons; by left|done].
      * exists x. split; [apply elem_of_cons; by right|done].
    + intros (x & [<-|Hx]%elem_of_cons & Hne & Hq).
      * left. by destruct x.
      * right. eauto.
Qed.

(** Every element inserted by a run of [insert] calls is found afterwards,
    wherever in the run it was inserted. *)
Theorem all_inserted_found (f : BloomFilter)
    (calls : list (option (list Byte.byte))) (x : list Byte.byte) :
  wf f -> Some x ∈ calls -> x <> [] ->
  exists f', insert_all f calls = Some f' /\ contains f' (Some x) = Some true.
Proof.
  intros Hwf Hx Hne.
  destruct (insert_all_bits f calls Hwf) as (f' & Hall & Hwf' & Hsame & Hbits).
  exists f'. split; [done|]. rewrite contains_nonempty by done. f_equal.
  apply forallb_true_iff. intros p Hp.
  rewrite (probes_same_parameters f f') in Hp by done.
  assert (0 <= p) as Hp0.
  { pose proof (probes_in_range f x Hwf) as Hr. rewrite Forall_forall in Hr.
    apply Hr in Hp. unfold in_range in Hp. lia. }
  rewrite Hbits by done.
  rewrite (bool_decide_eq_true_2 (p ∈ run_probes f calls)); [apply orb_true_r|].
  apply elem_of_run_probes. eauto.
Qed.

(** Starting from a filter with no bit set, [contains y] after a run of
    [insert] calls is true exactly when every probe position of [y] is a
    probe position of some inserted element: a positive answer for an
    element never inserted comes from such an overlap and from nothing
    else. *)
Theorem contains_iff_probes_covered (f : BloomFilter)
    (calls : list (option (list Byte.byte))) (y : list Byte.byte) :
  wf f -> Forall (eq 0) (bit_array_ f) -> y <> [] ->
  exists f', insert_all f calls = Some f' /\
    (contains f' (Some y) = Some true <->
     forall p, p ∈ probes f y ->
       exists x, Some x ∈ calls /\ x <> [] /\ p ∈ probes f x).
Proof.
  intros Hwf Hzero Hy.
  destruct (insert_all_bits f calls Hwf) as (f' & Hall & Hwf' & Hsame & Hbits).
  exists f'. split; [done|]. rewrite contains_nonempty by done.
  rewrite (probes_same_parameters f f') by done.
  assert (forall p, p ∈ probes f y ->
            bit_at (bit_array_ f') p = bool_decide (p ∈ run_probes f calls))
    as Hbit.
  { intros p Hp. pose proof (probes_in_range f y Hwf) as Hr.
    rewrite Forall_forall in Hr. apply Hr in Hp. unfold in_range in Hp.
    rewrite Hbits by lia. by rewrite zero_array_bit_at. }
  split.
  - intros [= Hcov]. rewrite forallb_true_iff in Hcov. intros p Hp.
    apply elem_of_run_probes. specialize (Hcov p Hp).
    rewrite Hbit in Hcov by done. by apply bool_decide_eq_true_1 in Hcov.
  - intros Hcov. f_equal. apply forallb_true_iff. intros p Hp.
    rewrite Hbit by done. apply bool_decide_eq_true_2, elem_of_run_probes. auto.
Qed.

(** ** Empty filters *)

Lemma probes_cons f x :
  1 <= hash_count_ f ->
  probes f x
  = probe (hasher_ f) x 0
    :: map (probe (hasher_ f) x) (seqZ 1 (hash_count_ f - 1)).
Proof. intros Hk. unfold probes. by rewrite seqZ_cons by lia. Qed.

Lemma empty_contains_false f d :
  wf f -> Forall (eq 0) (bit_array_ f) -> 1 <= hash_count_ f ->
  contains f d = Some false.
Proof.
  intros Hwf Hzero Hk. destruct d as [[|b bs]|]; try done.
  rewrite contains_nonempty, probes_cons by done. simpl.
  by rewrite zero_array_bit_at.
Qed.

Lemma empty_count_zero f :
  wf f -> Forall (eq 0) (bit_array_ f) -> count_set_bits f = Some 0.
Proof.
  intros Hwf Hzero. rewrite count_set_bits_spec by done. f_equal.
  by apply bits_set_zero.
Qed.

(** A filter constructed in explicit mode (from a size that leaves room
    for the rounding [m + 7]) is well formed, reports the three arguments
    through its accessors, counts 0 insertions and 0 set bits, and answers
    false to every query. *)
Theorem explicit_filter_starts_empty (libm : Libm) (m k n : Z)
    (f : BloomFilter) (d : option (list Byte.byte)) :
  0 <= m -> m + 7 < 2 ^ 64 -> 0 <= k ->
  BloomFilter_explicit libm m k n = Constructed f ->
  wf f /\ bit_array_size f = m /\ hash_count f = k /\ capacity f = n /\
  size f = 0 /\ count_set_bits f = Some 0 /\ contains f d = Some false.
Proof.
  intros Hm Hmax Hk Hf.
  destruct (explicit_constructed_wf libm m k n f Hm Hmax Hf) as (Hwf & Hsize & Hzero).
  assert (bit_array_size f = m /\ hash_count f = k /\ capacity f = n /\
          1 <= hash_count_ f) as (Hfm & Hfk & Hfn & Hk1).
  { revert Hf. unfold BloomFilter_explicit.
    destruct (Z.eqb_spec m 0); [done|]. destruct (Z.eqb_spec k 0); [done|].
    destruct (Z.ltb_spec MAX_HASH_FUNCTIONS k); [done|]. simpl.
    intros [= <-]. simpl. repeat split; lia. }
  split; [done|]. split; [done|]. split; [done|]. split; [done|].
  split; [done|]. split; [by apply empty_count_zero|].
  by apply empty_contains_false.
Qed.

(** A filter constructed in derived mode is always well formed: its size
    is between 64 and [2^64 - 2048] bits, so [m + 7] cannot wrap; it keeps
    the capacity and the rate it was given, counts 0 insertions and 0 set
    bits, and answers false to every query. *)
Theorem derived_filter_starts_empty (libm : Libm) (n : Z) (p : float)
    (f : BloomFilter) (d : option (list Byte.byte)) :
  BloomFilter_derived libm n p = Constructed f ->
  wf f /\ 64 <= bit_array_size f <= 2 ^ 64 - 2048 /\
  capacity f = n /\ false_positive_rate f = p /\
  size f = 0 /\ count_set_bits f = Some 0 /\ contains f d = Some false.
Proof.
  intros Hf.
  destruct (derived_constructed_wf libm n p f Hf) as (Hwf & Hsize & Hzero).
  assert (64 <= bit_array_size f <= 2 ^ 64 - 2048 /\ capacity f = n /\
          false_positive_rate f = p /\ 1 <= hash_count_ f)
    as (Hfm & Hfn & Hfp & Hk1).
  { revert Hf. unfold BloomFilter_derived.
    destruct (n =? 0); [done|]. destruct (_ || _); [done|].
    destruct (calculate_optimal_bit_array_size libm n p) as [m|] eqn:Hm; [|done].
    destruct (calculate_optimal_hash_count libm m n) as [k|] eqn:Hk; [|done].
    intros [= <-]. simpl.
    apply calculate_optimal_hash_count_range in Hk.
    unfold MIN_HASH_FUNCTIONS in Hk.
    revert Hm. unfold calculate_optimal_bit_array_size, MIN_BIT_ARRAY_SIZE.
    destruct (n =? 0); [intros [= <-]; repeat split; lia|].
    destruct (size_t_of_double _) as [t|] eqn:Ht; simpl; [|done].
    apply size_t_of_double_max in Ht. intros [= <-]. repeat split; lia. }
  split; [done|]. split; [done|]. split; [done|]. split; [done|].
  split; [done|]. split; [by apply empty_count_zero|].
  by apply empty_contains_false.
Qed.

(** ** clear after insert *)

(** [clear()] after any run of [insert] calls gives the filter that
    [clear()] gives at once: the same zeroed array, counter 0 and sizing
    fields; and a cleared filter with at least one hash answers false to
    every query. *)
Theorem clear_forgets_inserts (f : BloomFilter)
    (calls : list (option (list Byte.byte))) (d : option (list Byte.byte)) :
  wf f -> 1 <= hash_count_ f ->
  exists f', insert_all f calls = Some f' /\ clear f' = clear f /\
             contains (clear f') d = Some false.
Proof.
  intros Hwf Hk.
  destruct (insert_all_defined f calls Hwf) as (f' & Hall & Hwf' & Hsame & _).
  exists f'. split; [done|].
  assert (clear f' = clear f) as Hclear.
  { destruct Hsame as (Hm & Hb & Hk' & Hn & Hp & Hh).
    pose proof (wf_length f Hwf) as Hlen. pose proof (wf_length f' Hwf') as Hlen'.
    assert (length (bit_array_ f') = length (bit_array_ f)) as Hl by lia.
    unfold clear, with_inserted_count, with_bit_array. simpl.
    rewrite Hm, Hb, Hk', Hn, Hp, Hh. f_equal.
    revert Hl. generalize (bit_array_ f) (bit_array_ f').
    induction l as [|z l IH]; intros [|z' l']; simpl; try done.
    intros [= Hl]. f_equal. by apply IH. }
  split; [done|]. rewrite Hclear.
  apply empty_contains_false; [by apply clear_wf|apply clear_zeroes|done].
Qed.

(** ** The order of insert calls *)

Lemma is_byte_high_bit b n : is_byte b -> 8 <= n -> Z.testbit b n = false.
Proof.
  intros Hb Hn. rewrite <- (Z.mod_small b (2 ^ 8)) by (unfold is_byte in Hb; lia).
  apply Z.mod_pow2_bits_high. lia.
Qed.

(** Two byte arrays of one length whose bits agree are equal. *)
Lemma bit_array_ext (a a' : list Z) :
  length a = length a' -> Forall is_byte a -> Forall is_byte a' ->
  (forall q, 0 <= q -> bit_at a q = bit_at a' q) -> a = a'.
Proof.
  intros Hlen Ha Ha' Hbits. apply list_eq. intros i.
  destruct (a !! i) as [b|] eqn:Hb.
  - destruct (lookup_lt_is_Some_2 a' i) as [b' Hb'].
    { rewrite <- Hlen. by eapply lookup_lt_Some. }
    rewrite Hb'. f_equal. apply Z.bits_inj'. intros n Hn.
    destruct (Z.lt_ge_cases n 8).
    + rewrite <- (bit_at_byte a i b n), <- (bit_at_byte a' i b' n) by (done || lia).
      apply Hbits. lia.
    + rewrite !is_byte_high_bit; try done.
      * by eapply (proj1 (Forall_lookup _ _)); [apply Ha'|].
      * by eapply (proj1 (Forall_lookup _ _)); [apply Ha|].
  - symmetry. apply lookup_ge_None. rewrite <- Hlen. by apply lookup_ge_None.
Qed.

Lemma filter_eq_intro f g1 g2 :
  same_parameters f g1 -> same_parameters f g2 ->
  bit_array_ g1 = bit_array_ g2 -> inserted_count_ g1 = inserted_count_ g2 ->
  g1 = g2.
Proof.
  unfold same_parameters. destruct g1, g2. simpl.
  intros (-> & -> & -> & -> & -> & ->) (-> & -> & -> & -> & -> & ->) -> ->.
  done.
Qed.

Lemma wf_same_length f g :
  wf f -> wf g -> same_parameters f g ->
  length (bit_array_ g) = length (bit_array_ f).
Proof.
  intros Hf Hg (_ & Hb & _). pose proof (wf_length f Hf).
  pose proof (wf_length g Hg). lia.
Qed.

Lemma insert_swap f d1 d2 :
  wf f ->
  insert f d1 ≫= (fun g => insert g d2) = insert f d2 ≫= (fun g => insert g d1).
Proof.
  intros Hwf.
  destruct (insert_bits f d1 Hwf) as (g1 & H1 & Hwf1 & Hs1 & Hb1).
  destruct (insert_bits g1 d2 Hwf1) as (g12 & H12 & Hwf12 & Hs12 & Hb12).
  destruct (insert_bits f d2 Hwf) as (g2 & H2 & Hwf2 & Hs2 & Hb2).
  destruct (insert_bits g2 d1 Hwf2) as (g21 & H21 & Hwf21 & Hs21 & Hb21).
  rewrite H1, H2. simpl. rewrite H12, H21. f_equal.
  apply (filter_eq_intro f).
  - exact (same_parameters_trans f g1 g12 Hs1 Hs12).
  - exact (same_parameters_trans f g2 g21 Hs2 Hs21).
  - apply bit_array_ext.
    + rewrite (wf_same_length g1 g12), (wf_same_length f g1),
        (wf_same_length g2 g21), (wf_same_length f g2) by done. done.
    + by destruct Hwf12.
    + by destruct Hwf21.
    + intros q Hq. rewrite Hb12, Hb1, Hb21, Hb2 by done.
      rewrite (call_probes_same_parameters f g1),
        (call_probes_same_parameters f g2) by done.
      rewrite <- !orb_assoc. f_equal. apply orb_comm.
  - rewrite (insert_count g1 d2 g12), (insert_count f d1 g1),
      (insert_count g2 d1 g21), (insert_count f d2 g2) by done.
    rewrite !wrap64_add_l. f_equal. lia.
Qed.

(** The filter after a run of [insert] calls does not depend on their
    order: two runs that are permutations of each other end in the same
    bit array, counter and sizing fields. *)
Theorem insert_order_irrelevant (f : BloomFilter)
    (calls calls' : list (option (list Byte.byte))) :
  wf f -> Permutation calls calls' ->
  insert_all f calls = insert_all f calls'.
Proof.
  intros Hwf Hperm. revert f Hwf.
  induction Hperm as [|d l l' _ IH|d1 d2 l|l l' l'' _ IH1 _ IH2]; intros f Hwf.
  - done.
  - simpl. destruct (insert_defined f d Hwf) as (g & -> & Hg & _). simpl. auto.
  - pose proof (insert_swap f d2 d1 Hwf) as Hswap.
    simpl. destruct (insert f d1) as [g1|], (insert f d2) as [g2|];
      simpl in *; try done.
    + destruct (insert g1 d2) as [g12|], (insert g2 d1) as [g21|];
        simpl in *; congruence.
    + by destruct (insert g1 d2).
    + by destruct (insert g2 d1).
  - by rewrite IH1, IH2.
Qed.

(** ** How many bits an insert call sets *)

Lemma filter_one_more (g : Z -> bool) (h : Z) (l : list Z) :
  NoDup l ->
  (length (List.filter (fun q => g q || bool_decide (q = h)) l)
   <= length (List.filter g l) + 1)%nat.
Proof.
  induction 1 as [|x l Hx Hnd IH]; simpl; [lia|].
  destruct (decide (x = h)) as [->|Hne].
  - rewrite bool_decide_eq_true_2, orb_true_r by done.
    rewrite (List.filter_ext_in (fun q => g q || bool_decide (q = h)) g).
    + destruct (g h); simpl; lia.
    + intros q Hq. rewrite bool_decide_eq_false_2; [apply orb_false_r|].
      intros ->. by apply Hx, list_elem_of_In.
  - rewrite bool_decide_eq_false_2, orb_false_r by done.
    destruct (g x); simpl; lia.
Qed.

Lemma filter_some_more (g : Z -> bool) (hs l : list Z) :
  NoDup l ->
  (length (List.filter (fun q => g q || bool_decide (q ∈ hs)) l)
   <= length (List.filter g l) + length hs)%nat.
Proof.
  intros Hnd. revert g. induction hs as [|h hs IH]; intros g.
  - rewrite (List.filter_ext (fun q => g q || bool_decide (q ∈ [])) g);
      [simpl; lia|].
    intros q. rewrite bool_decide_eq_false_2 by apply not_elem_of_nil.
    apply orb_false_r.
  - rewrite (List.filter_ext (fun q => g q || bool_decide (q ∈ h :: hs))
               (fun q => (g q || bool_decide (q = h)) || bool_decide (q ∈ hs))).
    + etrans; [apply IH|]. pose proof (filter_one_more g h l Hnd). simpl. lia.
    + intros q. rewrite <- orb_assoc. f_equal.
      destruct (decide (q = h)) as [->|Hne].
      * rewrite (bool_decide_eq_true_2 (h ∈ h :: hs))
          by (apply elem_of_cons; by left).
        by rewrite (bool_decide_eq_true_2 (h = h)).
      * rewrite (bool_decide_eq_false_2 (q = h)) by done. simpl.
        apply bool_decide_ext. rewrite elem_of_cons. tauto.
Qed.

Lemma bits_set_grows_by (a a' hs : list Z) (m : Z) :
  (forall q, 0 <= q ->
     bit_at a' q = bit_at a q || bool_decide (q ∈ hs)) ->
  bits_set a' m <= bits_set a m + Z.of_nat (length hs).
Proof.
  intros Hbits. unfold bits_set.
  rewrite (List.filter_ext_in (bit_at a')
             (fun q => bit_at a q || bool_decide (q ∈ hs))).
  - pose proof (filter_some_more (bit_at a) hs (seqZ 0 m) (NoDup_seqZ 0 m)). lia.
  - intros q Hq. apply list_elem_of_In, elem_of_seqZ in Hq. apply Hbits. lia.
Qed.

Lemma probes_length f x : 0 <= hash_count_ f ->
  Z.of_nat (length (probes f x)) = hash_count_ f.
Proof. intros Hk. unfold probes. by rewrite length_map, length_seqZ, Z2Nat.id. Qed.

Lemma run_probes_length f calls :
  0 <= hash_count_ f ->
  Z.of_nat (length (run_probes f calls)) = hash_count_ f * nonempty_calls calls.
Proof.
  intros Hk. unfold run_probes, nonempty_calls.
  induction calls as [|d ds IH]; simpl; [lia|].
  rewrite length_app, Nat2Z.inj_add, IH.
  destruct d as [[|b bs]|]; simpl; try lia.
  rewrite (probes_length f (b :: bs)) by done. lia.
Qed.

(** An [insert] call sets at most [hash_count()] bits; so in a filter that
    started with no bit set and counter 0, [count_set_bits()] never
    exceeds [hash_count() * size()]. *)
Theorem insert_sets_at_most_k_bits (f : BloomFilter)
    (d : option (list Byte.byte)) (calls : list (option (list Byte.byte))) :
  wf f -> 0 <= hash_count_ f -> nonempty_calls calls < 2 ^ 64 ->
  (exists f' c c', insert f d = Some f' /\ count_set_bits f = Some c /\
     count_set_bits f' = Some c' /\ c' <= c + hash_count f) /\
  (Forall (eq 0) (bit_array_ f) -> size f = 0 ->
   exists f' c, insert_all f calls = Some f' /\
     count_set_bits f' = Some c /\ c <= hash_count f' * size f').
Proof.
  intros Hwf Hk Hcalls. split.
  - destruct (insert_bits f d Hwf) as (f' & Hins & Hwf' & Hsame & Hbits).
    eexists f', _, _. split; [done|].
    rewrite !count_set_bits_spec by done. split; [done|]. split; [done|].
    destruct Hsame as (-> & _).
    etrans; [exact (bits_set_grows_by (bit_array_ f) (bit_array_ f')
                      (call_probes f d) _ Hbits)|].
    apply Z.add_le_mono_l. destruct d as [[|b bs]|]; simpl; try done.
    by rewrite (probes_length f (b :: bs)).
  - intros Hzero Hsize.
    destruct (insert_all_bits f calls Hwf) as (f' & Hall & Hwf' & Hsame & Hbits).
    destruct (insert_all_count f calls Hwf) as (f'' & Hall' & Hcnt).
    assert (f'' = f') as -> by congruence.
    eexists f', _. split; [done|]. rewrite count_set_bits_spec by done.
    split; [done|]. unfold size, hash_count in *.
    rewrite Hcnt, Hsize, wrap64_small
      by (pose proof (nonempty_calls_nonneg calls); lia).
    destruct Hsame as (-> & _ & -> & _). simpl.
    etrans; [exact (bits_set_grows_by (bit_array_ f) (bit_array_ f')
                      (run_probes f calls) _ Hbits)|].
    rewrite bits_set_zero, run_probes_length by done. lia.
Qed.

(** ** The double-hashing combiner *)

(** [hash(data, size, i)] returns the [i]-th index that [get_all_hashes]
    stores, and both are undefined together (for [m = 0]). *)
Theorem hash_agrees_with_get_all_hashes (dh : DoubleHasher)
    (x : list Byte.byte) (k i : Z) :
  0 <= i < k ->
  get_all_hashes dh x k ≫= (fun hs => hs !! Z.to_nat i)
  = DoubleHasher_hash dh x i.
Proof.
  intros Hi. unfold get_all_hashes, DoubleHasher_hash.
  destruct (Z.eqb_spec (dh_bit_array_size_ dh) 0) as [Hm|Hm]; simpl.
  - by destruct (Z.ltb_spec 0 k); [|lia].
  - change (map ?g ?l) with (g <$> l).
    rewrite list_lookup_fmap, lookup_seqZ_lt by (rewrite Z2Nat.id; lia).
    simpl. by rewrite Z2Nat.id by lia.
Qed.

Lemma probe_pow2 dh x i j :
  0 <= j <= 64 -> dh_bit_array_size_ dh = 2 ^ j ->
  probe dh x i = (base_h1 dh x + i * base_h2 dh x) mod 2 ^ j.
Proof.
  intros Hj Hm. rewrite probe_formula, Hm. apply Z.mod_mod_divide.
  exists (2 ^ (64 - j)). rewrite <- Z.pow_add_r by lia. f_equal. lia.
Qed.

(** A power of two that divides an odd multiple of [d] divides [d]. *)
Lemma pow2_divide_odd_mul (j : nat) (h d : Z) :
  h mod 2 = 1 -> (2 ^ Z.of_nat j | h * d) -> (2 ^ Z.of_nat j | d).
Proof.
  intros Hodd. revert d. induction j as [|j IH]; intros d [c Hc].
  - exists d. simpl. lia.
  - rewrite Nat2Z.inj_succ, Z.pow_succ_r in * by lia.
    pose proof (Z.div_mod h 2 ltac:(lia)). pose proof (Z.div_mod d 2 ltac:(lia)).
    pose proof (Z.mod_pos_bound d 2 ltac:(lia)).
    assert (d mod 2 = 0) as Heven by nia.
    destruct (IH (d / 2)) as [e He]; [exists c; nia|].
    exists e. nia.
Qed.

Lemma pow2_affine_inj (h1 h2 j i1 i2 : Z) :
  0 <= j -> h2 mod 2 = 1 -> 0 <= i1 < 2 ^ j -> 0 <= i2 < 2 ^ j ->
  (h1 + i1 * h2) mod 2 ^ j = (h1 + i2 * h2) mod 2 ^ j -> i1 = i2.
Proof.
  intros Hj Hodd Hi1 Hi2 Heq.
  assert (0 < 2 ^ j) as Hpos by (apply Z.pow_pos_nonneg; lia).
  assert ((2 ^ j | h2 * (i1 - i2))) as Hdiv.
  { replace (h2 * (i1 - i2)) with ((h1 + i1 * h2) - (h1 + i2 * h2)) by ring.
    apply Z.mod_divide; [lia|].
    by rewrite Zminus_mod, Heq, Z.sub_diag, Z.mod_0_l by lia. }
  rewrite <- (Z2Nat.id j) in Hdiv by lia.
  apply pow2_divide_odd_mul in Hdiv; [|done].
  rewrite Z2Nat.id in Hdiv by lia. destruct Hdiv as [c Hc].
  revert Hi1 Hi2 Hpos Hc. generalize (2 ^ j). intros P Hi1 Hi2 Hpos Hc.
  assert (c = 0) as -> by nia. lia.
Qed.

Lemma probe_pow2_inj (dh : DoubleHasher) (x : list Byte.byte)
    (j i1 i2 : Z) :
  0 <= j <= 64 -> dh_bit_array_size_ dh = 2 ^ j ->
  0 <= i1 < 2 ^ j -> 0 <= i2 < 2 ^ j ->
  probe dh x i1 = probe dh x i2 -> i1 = i2.
Proof.
  intros Hj Hm Hi1 Hi2. rewrite !(probe_pow2 dh x _ j) by done.
  apply pow2_affine_inj; [lia| |done..]. apply make_odd_is_odd.
Qed.

(** With a power of two as [m], making [h2] odd pays off: for a count
    [k <= m], [get_all_hashes] returns [k] pairwise different positions. *)
Theorem pow2_probes_distinct (dh : DoubleHasher) (x : list Byte.byte)
    (j k : Z) :
  0 <= j <= 64 -> dh_bit_array_size_ dh = 2 ^ j -> 0 <= k <= 2 ^ j ->
  exists hs, get_all_hashes dh x k = Some hs /\
             Z.of_nat (length hs) = k /\ NoDup hs.
Proof.
  intros Hj Hm Hk.
  assert (0 < 2 ^ j) by (apply Z.pow_pos_nonneg; lia).
  rewrite get_all_hashes_defined by lia. eexists. split; [done|].
  split; [by rewrite length_map, length_seqZ, Z2Nat.id by lia|].
  change (map ?g ?l) with (g <$> l).
  apply NoDup_fmap_2_strong; [|apply NoDup_seqZ].
  intros i1 i2 Hi1%elem_of_seqZ Hi2%elem_of_seqZ.
  apply (probe_pow2_inj dh x j); (done || lia).
Qed.

(** ** The finalizer of MurmurHash3 *)

Lemma xorshift33_involution k :
  0 <= k < 2 ^ 64 ->
  Z.lxor (Z.lxor k (Z.shiftr k 33)) (Z.shiftr (Z.lxor k (Z.shiftr k 33)) 33)
  = k.
Proof.
  intros Hk. apply Z.bits_inj'. intros n Hn.
  rewrite !Z.lxor_spec, !Z.shiftr_spec, !Z.lxor_spec, !Z.shiftr_spec by lia.
  replace (Z.testbit k (n + 33 + 33)) with false.
  - by destruct (Z.testbit k n), (Z.testbit k (n + 33)).
  - symmetry. rewrite <- (Z.mod_small k (2 ^ 64)) by done.
    apply Z.mod_pow2_bits_high. lia.
Qed.

Lemma xorshift33_range k :
  0 <= k < 2 ^ 64 -> 0 <= Z.lxor k (Z.shiftr k 33) < 2 ^ 64.
Proof. intros Hk. apply lxor_range; [lia|done|]. by apply shiftr_range. Qed.

Lemma mul_inverse_wrap64 k c c' :
  0 <= k < 2 ^ 64 -> wrap64 (c * c') = 1 -> wrap64 (wrap64 (k * c) * c') = k.
Proof.
  unfold wrap64. intros Hk Hinv.
  rewrite Zmult_mod_idemp_l, <- Z.mul_assoc, <- Zmult_mod_idemp_r, Hinv.
  rewrite Z.mul_1_r. by apply Z.mod_small.
Qed.

Lemma fmix64_inv_fmix64 z :
  0 <= z < 2 ^ 64 -> fmix64_inv (MurmurHash3.fmix64 z) = z.
Proof.
  intros Hz. unfold fmix64_inv, MurmurHash3.fmix64.
  rewrite xorshift33_involution by apply wrap64_range.
  rewrite mul_inverse_wrap64;
    [|apply xorshift33_range, wrap64_range|reflexivity].
  rewrite xorshift33_involution by apply wrap64_range.
  rewrite mul_inverse_wrap64; [|by apply xorshift33_range|reflexivity].
  by apply xorshift33_involution.
Qed.

Lemma fmix64_inj k k' :
  0 <= k < 2 ^ 64 -> 0 <= k' < 2 ^ 64 ->
  MurmurHash3.fmix64 k = MurmurHash3.fmix64 k' -> k = k'.
Proof.
  intros Hk Hk' Heq.
  rewrite <- (fmix64_inv_fmix64 k), <- (fmix64_inv_fmix64 k') by done.
  by rewrite Heq.
Qed.

(** [fmix64] is a permutation of the 64-bit values: [fmix64_inv] undoes it
    and is undone by it, so two different states never finalize to the
    same hash. *)
Theorem fmix64_round_trip (k k' : Z) :
  0 <= k < 2 ^ 64 -> 0 <= k' < 2 ^ 64 ->
  fmix64_inv (MurmurHash3.fmix64 k) = k /\
  MurmurHash3.fmix64 (fmix64_inv k) = k /\
  (MurmurHash3.fmix64 k = MurmurHash3.fmix64 k' -> k = k').
Proof.
  intros Hk Hk'. split; [by apply fmix64_inv_fmix64|].
  split; [|by apply fmix64_inj].
  unfold fmix64_inv, MurmurHash3.fmix64.
  rewrite xorshift33_involution by apply wrap64_range.
  rewrite mul_inverse_wrap64;
    [|apply xorshift33_range, wrap64_range|reflexivity].
  rewrite xorshift33_involution by apply wrap64_range.
  rewrite mul_inverse_wrap64; [|by apply xorshift33_range|reflexivity].
  by apply xorshift33_involution.
Qed.

(** ** FNV-1a *)

Lemma byte_val_range b : 0 <= byte_val b < 2 ^ 8.
Proof.
  unfold byte_val. pose proof (Byte.to_N_bounded b). lia.
Qed.

Lemma byte_val_inj a b : byte_val a = byte_val b -> a = b.
Proof.
  unfold byte_val. intros H%N2Z.inj.
  apply (f_equal Byte.of_N) in H. rewrite !Byte.of_to_N in H. congruence.
Qed.

Lemma lxor_cancel_l h a b : Z.lxor h a = Z.lxor h b -> a = b.
Proof.
  intros H. apply (f_equal (Z.lxor h)) in H.
  by rewrite <- !Z.lxor_assoc, Z.lxor_nilpotent, !Z.lxor_0_l in H.
Qed.

Lemma fnv1a_unstep_step h b :
  0 <= h < 2 ^ 64 -> fnv1a_unstep (FNV1a.step h b) b = h.
Proof.
  intros Hh. unfold fnv1a_unstep, FNV1a.step.
  rewrite mul_inverse_wrap64; [|apply lxor_range; [lia|done|]|reflexivity].
  - by rewrite Z.lxor_assoc, Z.lxor_nilpotent, Z.lxor_0_r.
  - pose proof (byte_val_range b). lia.
Qed.

Lemma fnv1a_hash_range bytes seed :
  0 <= seed < 2 ^ 64 -> 0 <= FNV1a.hash bytes seed < 2 ^ 64.
Proof.
  intros Hseed. unfold FNV1a.hash.
  assert (0 <= Z.lxor FNV1a.offset_basis seed < 2 ^ 64) as Hinit
    by (apply lxor_range; [lia|unfold FNV1a.offset_basis; lia|done]).
  revert Hinit. generalize (Z.lxor FNV1a.offset_basis seed).
  induction bytes as [|b bs IH]; intros h Hh; simpl; [done|].
  apply IH, wrap64_range.
Qed.

(** FNV-1a of the empty input is the offset basis xor the seed; a longer
    input is hashed by continuing from the hash of its prefix; and two
    inputs that differ only in their last byte never collide, since one
    round of the hash can be undone. *)
Theorem fnv1a_last_byte (x y : list Byte.byte) (a b : Byte.byte) (seed : Z) :
  0 <= seed < 2 ^ 64 ->
  FNV1a.hash [] seed = Z.lxor 0xcbf29ce484222325 seed /\
  FNV1a.hash (x ++ y) seed = foldl FNV1a.step (FNV1a.hash x seed) y /\
  fnv1a_unstep (FNV1a.hash (x ++ [a]) seed) a = FNV1a.hash x seed /\
  (FNV1a.hash (x ++ [a]) seed = FNV1a.hash (x ++ [b]) seed -> a = b).
Proof.
  intros Hseed. split; [done|].
  split; [unfold FNV1a.hash; apply foldl_app|].
  assert (forall c, FNV1a.hash (x ++ [c]) seed
                    = FNV1a.step (FNV1a.hash x seed) c) as Hlast
    by (intros c; unfold FNV1a.hash; by rewrite foldl_app).
  pose proof (fnv1a_hash_range x seed Hseed) as Hr.
  split; [by rewrite Hlast, fnv1a_unstep_step|].
  rewrite !Hlast. intros Heq.
  assert (forall c, 0 <= Z.lxor (FNV1a.hash x seed) (byte_val c) < 2 ^ 64)
    as Hc.
  { intros c. apply lxor_range; [lia|done|]. pose proof (byte_val_range c). lia. }
  unfold FNV1a.step in Heq.
  apply (f_equal (fun z => wrap64 (z * 14886173955864302971))) in Heq.
  rewrite !mul_inverse_wrap64 in Heq by (first [apply Hc | reflexivity]).
  by apply byte_val_inj, (lxor_cancel_l (FNV1a.hash x seed)).
Qed.

(** ** Power-of-two sizes *)

Lemma filter_exactly_one_more (g : Z -> bool) (h : Z) (l : list Z) :
  NoDup l -> h ∈ l -> g h = false ->
  length (List.filter (fun q => g q || bool_decide (q = h)) l)
  = S (length (List.filter g l)).
Proof.
  induction 1 as [|x l Hx Hnd IH]; intros Hh Hg; [by apply not_elem_of_nil in Hh|].
  simpl. destruct (decide (x = h)) as [->|Hne].
  - rewrite bool_decide_eq_true_2, orb_true_r, Hg by done. simpl. f_equal.
    f_equal. apply List.filter_ext_in. intros q Hq.
    rewrite bool_decide_eq_false_2; [apply orb_false_r|].
    intros ->. by apply Hx, list_elem_of_In.
  - apply elem_of_cons in Hh as [Hh|Hh]; [congruence|].
    rewrite bool_decide_eq_false_2, orb_false_r by done.
    destruct (g x); simpl; by rewrite IH.
Qed.

Lemma filter_members_length (hs l : list Z) :
  NoDup l -> NoDup hs -> (forall q, q ∈ hs -> q ∈ l) ->
  length (List.filter (fun q => bool_decide (q ∈ hs)) l) = length hs.
Proof.
  intros Hl. induction 1 as [|h hs Hh Hnd IH]; intros Hsub.
  - rewrite (List.filter_ext _ (fun _ => false)); [by rewrite List.filter_false|].
    intros q. apply bool_decide_eq_false_2, not_elem_of_nil.
  - rewrite (List.filter_ext _
               (fun q => bool_decide (q ∈ hs) || bool_decide (q = h))).
    + rewrite filter_exactly_one_more; [simpl; f_equal; apply IH| | |].
      * intros q Hq. apply Hsub, elem_of_cons. by right.
      * done.
      * apply Hsub, elem_of_cons. by left.
      * by apply bool_decide_eq_false_2.
    + intros q. rewrite orb_comm.
      destruct (decide (q = h)) as [->|Hne].
      * rewrite (bool_decide_eq_true_2 (h ∈ h :: hs))
          by (apply elem_of_cons; by left).
        by rewrite (bool_decide_eq_true_2 (h = h)).
      * rewrite (bool_decide_eq_false_2 (q = h)) by done. simpl.
        apply bool_decide_ext. rewrite elem_of_cons. tauto.
Qed.

Lemma pow2_probes_NoDup f x j :
  wf f -> bit_array_size_ f = 2 ^ j -> 0 <= j <= 64 ->
  hash_count_ f <= 2 ^ j -> NoDup (probes f x).
Proof.
  intros Hwf Hm Hj Hk. unfold probes. change (map ?g ?l) with (g <$> l).
  apply NoDup_fmap_2_strong; [|apply NoDup_seqZ].
  intros i1 i2 Hi1%elem_of_seqZ Hi2%elem_of_seqZ.
  apply (probe_pow2_inj (hasher_ f) x j); try lia.
  by rewrite (wf_hasher f Hwf).
Qed.

(** In an empty filter whose size is a power of two, inserting a non-empty
    element sets exactly [hash_count()] bits (for a hash count of at most
    [m]): no two of its probes fall on the same position. *)
Theorem pow2_insert_sets_k_bits (f : BloomFilter) (x : list Byte.byte)
    (j : Z) :
  wf f -> Forall (eq 0) (bit_array_ f) -> x <> [] ->
  0 <= j <= 64 -> bit_array_size_ f = 2 ^ j ->
  0 <= hash_count_ f <= 2 ^ j ->
  exists f', insert f (Some x) = Some f' /\
             count_set_bits f' = Some (hash_count f).
Proof.
  intros Hwf Hzero Hx Hj Hm Hk.
  destruct (insert_nonempty f x Hwf Hx) as (f' & Hins & Hwf' & Hsame & _ & Hbits).
  exists f'. split; [done|]. rewrite count_set_bits_spec by done. f_equal.
  destruct Hsame as (-> & _). unfold bits_set, hash_count.
  rewrite <- (probes_length f x) by lia. f_equal.
  rewrite (List.filter_ext_in _ (fun q => bool_decide (q ∈ probes f x))).
  - apply filter_members_length; [apply NoDup_seqZ| |].
    + apply (pow2_probes_NoDup f x j); (done || lia).
    + intros q Hq. pose proof (probes_in_range f x Hwf) as Hr.
      rewrite Forall_forall in Hr. apply Hr in Hq. unfold in_range in Hq.
      apply elem_of_seqZ. lia.
  - intros q Hq. apply list_elem_of_In, elem_of_seqZ in Hq.
    rewrite Hbits by lia. by rewrite zero_array_bit_at.
Qed.

(** ** Validation by the constructors *)


Lemma rate_checks_fail p :
  fle p 0 = true \/ fle 1 p = true -> ~ rate_in_unit_interval p.
Proof.
  unfold rate_in_unit_interval, fle, flt.
  rewrite !FloatAxioms.leb_spec, !FloatAxioms.ltb_spec.
  change (Prim2SF 0) with (S754_zero false).
  change (Prim2SF 1) with (S754_finite false 4503599627370496 (-52)).
  destruct (Prim2SF p) as [s|s| |s m e]; try destruct s;
    try (by intros [?|?] [? ?]).
  unfold SFleb, SFltb, SFcompare.
  rewrite (Z.compare_antisym e (-52)).
  replace (Pos.compare_cont Eq 4503599627370496 m)
    with (CompOpp (Pos.compare_cont Eq m 4503599627370496))
    by apply Pos.compare_cont_antisym.
  generalize (Pos.compare_cont Eq m 4503599627370496) as c.
  generalize (e ?= -52) as c'. intros c' c [?|Hle] [_ Hlt]; [done|].
  destruct c', c; simpl in *; congruence.
Qed.

(** Derived mode throws exactly for a zero capacity or a rate [p] with
    [p <= 0.0] or [p >= 1.0]; for a rate that is a number this is: exactly
    when the capacity is zero or the rate is not strictly between 0
    and 1. *)
Theorem derived_mode_validation (libm : Libm) (n : Z) (p : float) :
  (BloomFilter_derived libm n p = invalid_argument <->
   n = 0 \/ fle p 0 = true \/ fle 1 p = true) /\
  (is_nan p = false ->
   (BloomFilter_derived libm n p = invalid_argument <->
    n = 0 \/ ~ rate_in_unit_interval p)).
Proof.
  split; [apply derived_invalid_iff|]. intros Hnan.
  rewrite derived_invalid_iff. split.
  - intros [?|Hp]; [by left|]. right. by apply rate_checks_fail.
  - intros [?|Hout]; [by left|]. right.
    destruct (fle p 0) eqn:H0; [by left|].
    destruct (fle 1 p) eqn:H1; [by right|].
    exfalso. apply Hout. by apply rate_checks_pass.
Qed.

(** ** The parameter calculator *)

(** The calculator on its degenerate inputs and its clamps: a zero
    capacity gives the minimum size 64 and one hash; a rate outside (0, 1)
    is replaced by the default 1% rate; and whatever <cmath> returns, a
    size that is returned lies in [64, 2^64 - 2048] and a hash count
    in [1, 32]. *)
Theorem calculator_edges (libm : Libm) (n m : Z) (p : float) :
  calculate_optimal_bit_array_size libm 0 p = Some 64 /\
  calculate_optimal_hash_count libm m 0 = Some 1 /\
  (fle p 0 || fle 1 p = true ->
   calculate_optimal_bit_array_size libm n p
   = calculate_optimal_bit_array_size libm n DEFAULT_FALSE_POSITIVE_RATE) /\
  (forall r, calculate_optimal_bit_array_size libm n p = Some r ->
             64 <= r <= 2 ^ 64 - 2048) /\
  (forall r, calculate_optimal_hash_count libm m n = Some r -> 1 <= r <= 32).
Proof.
  split; [done|]. split; [done|]. split; [|split].
  - intros Hp. unfold calculate_optimal_bit_array_size.
    destruct (n =? 0); [done|]. rewrite Hp.
    by change (fle DEFAULT_FALSE_POSITIVE_RATE 0
               || fle 1 DEFAULT_FALSE_POSITIVE_RATE) with false.
  - intros r Hr.
    pose proof (calculate_optimal_bit_array_size_min _ _ _ _ Hr) as Hmin.
    pose proof (calculate_optimal_bit_array_size_max _ _ _ _ Hr) as Hmax.
    unfold MIN_BIT_ARRAY_SIZE in Hmin. split; [done|].
    revert Hr. unfold calculate_optimal_bit_array_size, MIN_BIT_ARRAY_SIZE.
    destruct (n =? 0); [intros [= <-]; lia|].
    destruct (size_t_of_double _) as [t|] eqn:Ht; simpl; [|done].
    apply size_t_of_double_max in Ht. intros [= <-]. lia.
  - intros r Hr. by apply calculate_optimal_hash_count_range in Hr.
Qed.

(** ** The live estimate *)


(** ** memory_usage *)

(** [memory_usage()] of a well-formed filter is [ceil(m / 8)] plus the
    size of the object (as long as the sum is a [size_t]); it is not
    changed by [insert], and it does not decrease when [m] grows. *)
Theorem memory_usage_grows_with_size (f g : BloomFilter) (sizeof_this : Z)
    (d : option (list Byte.byte)) :
  wf f -> wf g -> 0 <= sizeof_this ->
  bit_array_size g + 7 + 8 * sizeof_this < 2 ^ 64 ->
  bit_array_size f <= bit_array_size g ->
  memory_usage sizeof_this f = (bit_array_size f + 7) / 8 + sizeof_this /\
  memory_usage sizeof_this f <= memory_usage sizeof_this g /\
  exists f', insert f d = Some f' /\
             memory_usage sizeof_this f' = memory_usage sizeof_this f.
Proof.
  unfold bit_array_size. intros Hf Hg Hs Hmax Hle.
  pose proof (wf_bytes f Hf) as Hbf. pose proof (wf_bytes g Hg) as Hbg.
  destruct (wf_size f Hf) as [Hf0 _].
  unfold memory_usage. rewrite Hbf, Hbg, !wrap64_small by zdm.
  split; [done|]. split; [zdm|].
  destruct (insert_defined f d Hf) as (f' & Hins & _ & (_ & Hb & _) & _).
  exists f'. split; [done|]. by rewrite Hb, Hbf, wrap64_small by zdm.
Qed.

(** ** The largest sizes *)

Lemma count_full_bytes_nil idx c :
  idx <> [] -> count_full_bytes [] idx c = None.
Proof. by destruct idx. Qed.

(** For the seven sizes above [2^64 - 8] the sum [m + 7] wraps: explicit
    mode then constructs a filter with an empty bit array, on which
    [insert] and [contains] of every non-empty element and
    [count_set_bits()] index the vector out of range. *)
Theorem largest_sizes_wrap (libm : Libm) (m k n : Z) (x : list Byte.byte) :
  2 ^ 64 - 8 < m < 2 ^ 64 -> 1 <= k <= 32 -> x <> [] ->
  exists f, BloomFilter_explicit libm m k n = Constructed f /\
            bit_array_size f = m /\ bit_array_ f = [] /\
            insert f (Some x) = None /\ contains f (Some x) = None /\
            count_set_bits f = None.
Proof.
  intros Hm Hk Hx. unfold BloomFilter_explicit.
  destruct (Z.eqb_spec m 0); [lia|]. destruct (Z.eqb_spec k 0); [lia|].
  destruct (Z.ltb_spec MAX_HASH_FUNCTIONS k);
    [unfold MAX_HASH_FUNCTIONS in *; lia|]. simpl.
  assert (wrap64 (m + 7) / 8 = 0) as Hbytes.
  { unfold wrap64. change (2 ^ 64) with 18446744073709551616 in *. zdm. }
  rewrite Hbytes. eexists. split; [done|]. simpl. split; [done|].
  split; [done|]. split; [|split].
  - apply insert_empty_array; simpl; (done || lia).
  - unfold contains. rewrite length_nonempty by done. simpl.
    rewrite get_all_hashes_defined by (simpl; lia). simpl.
    rewrite seqZ_cons by lia. simpl. unfold get_bit. simpl.
    pose proof (probe_in_range (DoubleHasher_new m) x 0) as Hp. simpl in Hp.
    destruct (Z.leb_spec m (probe (DoubleHasher_new m) x 0)); [lia|done].
  - unfold count_set_bits. simpl. rewrite count_full_bytes_nil; [done|].
    intros Hnil. apply (f_equal length) in Hnil.
    rewrite length_seq in Hnil. simpl in Hnil.
    change (2 ^ 64) with 18446744073709551616 in *. zdm.
Qed.

(** ** The std::string overloads *)

Lemma list_byte_of_string_nil str :
  String.list_byte_of_string str = [] <-> str = String.EmptyString.
Proof. destruct str; simpl; split; done. Qed.

(** A string is found after its insertion exactly when it is not empty:
    the empty string is skipped by [insert] and always reported absent by
    [contains]. *)
Theorem string_insert_then_contains (f : BloomFilter) (str : String.string) :
  wf f ->
  exists f', insert_string f str = Some f' /\
    (str = String.EmptyString ->
     f' = f /\ contains_string f' str = Some false) /\
    (str <> String.EmptyString -> contains_string f' str = Some true).
Proof.
  intros Hwf. unfold insert_string, contains_string.
  destruct str as [|c str].
  - exists f. by repeat split.
  - assert (String.list_byte_of_string (String.String c str) <> []) as Hx
      by (by rewrite list_byte_of_string_nil).
    destruct (insert_nonempty f _ Hwf Hx) as (f' & Hins & Hwf' & Hsame & _ & Hbits).
    exists f'. split; [done|]. split; [done|]. intros _.
    rewrite contains_nonempty by done. f_equal.
    apply forallb_true_iff. intros q Hq.
    rewrite (probes_same_parameters f f') in Hq by done.
    assert (0 <= q) as Hq0.
    { pose proof (probes_in_range f
                    (String.list_byte_of_string (String.String c str)) Hwf)
        as Hr.
      rewrite Forall_forall in Hr. apply Hr in Hq. unfold in_range in Hq. lia. }
    rewrite Hbits by done. rewrite (bool_decide_eq_true_2 _ Hq).
    apply orb_true_r.
Qed.

(** ** MurmurHash3 as a function of its seed *)

Lemma high_bit_false z n : 0 <= z < 2 ^ 64 -> 64 <= n -> Z.testbit z n = false.
Proof.
  intros Hz Hn. rewrite <- (Z.mod_small z (2 ^ 64)) by done.
  apply Z.mod_pow2_bits_high. lia.
Qed.

Lemma lor_range a b n :
  0 <= n -> 0 <= a < 2 ^ n -> 0 <= b < 2 ^ n -> 0 <= Z.lor a b < 2 ^ n.
Proof.
  intros Hn Ha Hb.
  assert (forall z i, 0 <= z < 2 ^ n -> n <= i -> Z.testbit z i = false)
    as Hhigh.
  { intros z i Hz Hi. rewrite <- (Z.mod_small z (2 ^ n)) by done.
    apply Z.mod_pow2_bits_high. lia. }
  replace (Z.lor a b) with (Z.lor a b mod 2 ^ n);
    [apply Z.mod_pos_bound; by apply Z.pow_pos_nonneg|].
  apply Z.bits_inj'. intros i Hi. destruct (Z.lt_ge_cases i n).
  - by rewrite Z.mod_pow2_bits_low.
  - rewrite Z.mod_pow2_bits_high by lia.
    by rewrite Z.lor_spec, !Hhigh by done.
Qed.

Lemma rotl64_range x r :
  0 <= 64 - r -> 0 <= x < 2 ^ 64 -> 0 <= MurmurHash3.rotl64 x r < 2 ^ 64.
Proof.
  intros Hr Hx. unfold MurmurHash3.rotl64.
  apply lor_range; [lia|apply wrap64_range|by apply shiftr_range].
Qed.

(** Bit [n] of [rotl64 x r] is bit [n - r] of [x], counted modulo 64. *)
Lemma rotl64_testbit x r n :
  0 < r < 64 -> 0 <= x < 2 ^ 64 -> 0 <= n < 64 ->
  Z.testbit (MurmurHash3.rotl64 x r) n
  = Z.testbit x (if r <=? n then n - r else n + 64 - r).
Proof.
  intros Hr Hx Hn. unfold MurmurHash3.rotl64, wrap64.
  rewrite Z.lor_spec, Z.mod_pow2_bits_low, Z.shiftl_spec, Z.shiftr_spec by lia.
  replace (n + (64 - r)) with (n + 64 - r) by lia.
  destruct (Z.leb_spec r n).
  - rewrite (high_bit_false x (n + 64 - r)) by (done || lia). apply orb_false_r.
  - by rewrite (Z.testbit_neg_r x (n - r)) by lia.
Qed.

Lemma rotl64_inj x y r :
  0 < r < 64 -> 0 <= x < 2 ^ 64 -> 0 <= y < 2 ^ 64 ->
  MurmurHash3.rotl64 x r = MurmurHash3.rotl64 y r -> x = y.
Proof.
  intros Hr Hx Hy Heq. apply Z.bits_inj'. intros n Hn.
  destruct (Z.lt_ge_cases n 64) as [Hlt|Hge];
    [|by rewrite !high_bit_false].
  destruct (Z.lt_ge_cases n (64 - r)).
  - pose proof (rotl64_testbit x r (n + r) Hr Hx ltac:(lia)) as Hbx.
    pose proof (rotl64_testbit y r (n + r) Hr Hy ltac:(lia)) as Hby.
    destruct (Z.leb_spec r (n + r)); [|lia].
    replace (n + r - r) with n in * by lia. congruence.
  - pose proof (rotl64_testbit x r (n + r - 64) Hr Hx ltac:(lia)) as Hbx.
    pose proof (rotl64_testbit y r (n + r - 64) Hr Hy ltac:(lia)) as Hby.
    destruct (Z.leb_spec r (n + r - 64)); [lia|].
    replace (n + r - 64 + 64 - r) with n in * by lia. congruence.
Qed.

Lemma wrap64_add_inj a b c :
  0 <= a < 2 ^ 64 -> 0 <= b < 2 ^ 64 -> wrap64 (a + c) = wrap64 (b + c) -> a = b.
Proof.
  unfold wrap64. change (2 ^ 64) with 18446744073709551616. intros Ha Hb Heq.
  zdm.
Qed.

Lemma wrap64_mul_inj a b c c' :
  0 <= a < 2 ^ 64 -> 0 <= b < 2 ^ 64 -> wrap64 (c * c') = 1 ->
  wrap64 (a * c) = wrap64 (b * c) -> a = b.
Proof.
  intros Ha Hb Hinv Heq.
  rewrite <- (mul_inverse_wrap64 a c c'), <- (mul_inverse_wrap64 b c c') by done.
  by rewrite Heq.
Qed.

Lemma lxor_cancel_r a b k : Z.lxor a k = Z.lxor b k -> a = b.
Proof. rewrite !(Z.lxor_comm _ k). apply lxor_cancel_l. Qed.

Lemma mix_k1_range k1 : 0 <= MurmurHash3.mix_k1 k1 < 2 ^ 64.
Proof. apply wrap64_range. Qed.

Lemma body_step_range bytes h i : 0 <= MurmurHash3.body_step bytes h i < 2 ^ 64.
Proof. apply wrap64_range. Qed.

Lemma body_step_inj bytes i h h' :
  0 <= h < 2 ^ 64 -> 0 <= h' < 2 ^ 64 ->
  MurmurHash3.body_step bytes h i = MurmurHash3.body_step bytes h' i -> h = h'.
Proof.
  intros Hh Hh'. unfold MurmurHash3.body_step.
  pose proof (mix_k1_range (MurmurHash3.block bytes i)) as Hk.
  intros Heq. apply wrap64_add_inj in Heq; [|apply wrap64_range..].
  apply (wrap64_mul_inj _ _ 5 14757395258967641293) in Heq;
    [| |  |reflexivity];
    [|apply rotl64_range; [lia|by apply lxor_range]..].
  apply rotl64_inj in Heq; [|lia|by apply lxor_range..].
  by apply lxor_cancel_r in Heq.
Qed.

Lemma body_loop_range bytes h l :
  0 <= h < 2 ^ 64 -> 0 <= foldl (MurmurHash3.body_step bytes) h l < 2 ^ 64.
Proof.
  revert h. induction l as [|i l IH]; intros h Hh; simpl; [done|].
  apply IH, body_step_range.
Qed.

Lemma body_loop_inj bytes l h h' :
  0 <= h < 2 ^ 64 -> 0 <= h' < 2 ^ 64 ->
  foldl (MurmurHash3.body_step bytes) h l
  = foldl (MurmurHash3.body_step bytes) h' l -> h = h'.
Proof.
  revert h h'. induction l as [|i l IH]; intros h h' Hh Hh'; simpl; [done|].
  intros Heq%IH; [|apply body_step_range..]. by apply body_step_inj in Heq.
Qed.

(** The tail either xors a value that does not depend on [h1] into it or
    leaves it alone. *)
Lemma tail_step_xor tail rem :
  exists k, 0 <= k < 2 ^ 64 /\
            forall h, MurmurHash3.tail_step tail rem h = Z.lxor h k.
Proof.
  unfold MurmurHash3.tail_step. destruct (1 <=? rem).
  - eexists. split; [apply mix_k1_range|]. done.
  - exists 0. split; [lia|]. intros h. by rewrite Z.lxor_0_r.
Qed.

(** For a fixed input, [MurmurHash3::hash] is one-to-one in the seed: every
    step of the body loop, the tail and the finalizer can be undone. In
    particular the two base hashes of a [DoubleHasher] with its default
    seeds are never equal before [h2] is made odd. *)
Theorem hash_seed_injective (x : list Byte.byte) (s1 s2 m : Z) :
  Z.of_nat (length x) < 2 ^ 64 -> 0 <= s1 < 2 ^ 64 -> 0 <= s2 < 2 ^ 64 ->
  (MurmurHash3.hash x s1 = MurmurHash3.hash x s2 -> s1 = s2) /\
  MurmurHash3.hash x (hash1_ (DoubleHasher_new m))
  <> MurmurHash3.hash x (hash2_ (DoubleHasher_new m)).
Proof.
  intros Hlen Hs1 Hs2.
  assert (forall a b, 0 <= a < 2 ^ 64 -> 0 <= b < 2 ^ 64 ->
            MurmurHash3.hash x a = MurmurHash3.hash x b -> a = b) as Hinj.
  { intros a b Ha Hb. unfold MurmurHash3.hash.
    destruct (tail_step_xor
                (drop (Z.to_nat (Z.of_nat (length x) / 8) * 8) x)
                (Z.land (Z.of_nat (length x)) 7)) as (k & Hk & Htail).
    rewrite !Htail. intros Heq.
    pose proof (body_loop_range x a
                  (seq 0 (Z.to_nat (Z.of_nat (length x) / 8))) Ha).
    pose proof (body_loop_range x b
                  (seq 0 (Z.to_nat (Z.of_nat (length x) / 8))) Hb).
    apply fmix64_inj in Heq;
      [|apply lxor_range; [lia| |lia]; by apply lxor_range..].
    apply lxor_cancel_r, lxor_cancel_r in Heq.
    by apply body_loop_inj in Heq. }
  split; [by apply Hinj|]. intros Heq. by apply Hinj in Heq.
Qed.

(** ** MurmurHash3 and trailing zero bytes *)

Lemma foldl_ext_in {A B} (f g : A -> B -> A) (l : list B) (a : A) :
  (forall h i, i ∈ l -> f h i = g h i) -> foldl f a l = foldl g a l.
Proof.
  revert a. induction l as [|i l IH]; intros a Hfg; simpl; [done|].
  rewrite (Hfg a i) by (apply elem_of_cons; by left).
  apply IH. intros h j Hj. apply Hfg, elem_of_cons. by right.
Qed.

(** A block that lies inside [x] is the same block of [x ++ y]. *)
Lemma block_app x y (i : nat) :
  (8 * i + 8 <= length x)%nat ->
  MurmurHash3.block (x ++ y) i = MurmurHash3.block x i.
Proof.
  intros Hi. unfold MurmurHash3.block.
  rewrite drop_app_le, take_app_le; [done| |lia].
  rewrite length_drop. lia.
Qed.

(** A zero byte behind the tail adds nothing to [k1]. *)
Lemma tail_step_zero (t : list Byte.byte) (h : Z) :
  (length t <= 6)%nat ->
  MurmurHash3.tail_step (t ++ [Byte.x00]) (Z.of_nat (length t) + 1) h
  = MurmurHash3.tail_step t (Z.of_nat (length t)) h.
Proof.
  assert (MurmurHash3.mix_k1 0 = 0) as Hmix by (vm_compute; reflexivity).
  intros Hlen.
  do 7 (destruct t as [|? t];
        [unfold MurmurHash3.tail_step, MurmurHash3.tail_byte;
         cbn -[MurmurHash3.mix_k1 Z.lxor Z.shiftl byte_val];
         change (byte_val Byte.x00) with 0;
         rewrite ?Z.shiftl_0_l, ?Z.lxor_0_r, ?Z.lxor_0_l, ?Hmix, ?Z.lxor_0_r;
         reflexivity|]).
  simpl in Hlen. lia.
Qed.

(** Appending a zero byte changes the hash (for the same seed) whenever it
    does not complete a block: the byte adds nothing to the tail, but the
    length that is xor-ed in before the finalizer differs, and the
    finalizer is one-to-one. *)
Theorem hash_zero_byte_appended (x : list Byte.byte) (seed : Z) :
  Z.of_nat (length x) + 1 < 2 ^ 64 -> Z.of_nat (length x) mod 8 <> 7 ->
  0 <= seed < 2 ^ 64 ->
  MurmurHash3.hash (x ++ [Byte.x00]) seed <> MurmurHash3.hash x seed.
Proof.
  intros Hlen Hrem Hseed. unfold MurmurHash3.hash.
  rewrite length_app. simpl length.
  replace (Z.of_nat (length x + 1)) with (Z.of_nat (length x) + 1) by lia.
  set (n := Z.of_nat (length x)) in *.
  assert (0 <= n) as Hn by (unfold n; lia).
  replace ((n + 1) / 8) with (n / 8) by zdm.
  set (q := Z.to_nat (n / 8)).
  assert (Z.of_nat q = n / 8) as Hq by (unfold q; rewrite Z2Nat.id; zdm).
  assert (Z.land n 7 = n mod 8) as Hland by (apply (Z.land_ones n 3); lia).
  assert (Z.land (n + 1) 7 = n mod 8 + 1) as Hland'.
  { pose proof (Z.land_ones (n + 1) 3 ltac:(lia)) as Hones.
    change (Z.ones 3) with 7 in Hones. change (2 ^ 3) with 8 in Hones.
    rewrite Hones. zdm. }
  rewrite Hland, Hland'.
  rewrite (foldl_ext_in (MurmurHash3.body_step (x ++ [Byte.x00]))
             (MurmurHash3.body_step x)).
  2:{ intros h i Hi. apply list_elem_of_In, in_seq in Hi.
      unfold MurmurHash3.body_step. rewrite block_app; [done|].
      apply Nat2Z.inj_le. unfold n in *. rewrite Nat2Z.inj_add, Nat2Z.inj_mul.
      simpl Z.of_nat. zdm. }
  rewrite drop_app_le by (apply Nat2Z.inj_le; unfold n in *;
                          rewrite Nat2Z.inj_mul; simpl Z.of_nat; zdm).
  assert (Z.of_nat (length (drop (q * 8) x)) = n mod 8) as Htail.
  { rewrite length_drop, Nat2Z.inj_sub, Nat2Z.inj_mul;
      [fold n; simpl Z.of_nat; zdm|].
    apply Nat2Z.inj_le. rewrite Nat2Z.inj_mul. fold n. simpl Z.of_nat. zdm. }
  rewrite <- Htail, tail_step_zero by zdm.
  destruct (tail_step_xor (drop (q * 8) x)
              (Z.of_nat (length (drop (q * 8) x)))) as (k & Hk & Hxor).
  rewrite Hxor.
  pose proof (body_loop_range x seed (seq 0 q) Hseed) as Hbody.
  intros Heq. apply fmix64_inj in Heq;
    [|apply lxor_range; [lia| |lia]; by apply lxor_range..].
  apply lxor_cancel_l in Heq. lia.
Qed.

(** ** The further properties on concrete filters *)

Lemma fresh_filter_wf : wf fresh_filter.
Proof.
  split; simpl; try done; try lia.
  repeat constructor; unfold is_byte; lia.
Defined.

Lemma pow2_filter_wf : wf pow2_filter.
Proof.
  split; simpl; try done; try lia.
  repeat constructor; unfold is_byte; lia.
Defined.

Lemma fresh_filter_zero : Forall (eq 0) (bit_array_ fresh_filter).
Proof. repeat constructor. Defined.

Lemma pow2_filter_zero : Forall (eq 0) (bit_array_ pow2_filter).
Proof. repeat constructor. Defined.

Lemma bytes_a_nonempty : bytes_a <> [].
Proof. discriminate. Defined.

Lemma set_bit_get_bit_witness :
  wf example_filter /\ 0 <= 3 /\
  exists f', set_bit example_filter 3 = Some f' /\
    (3 < bit_array_size_ example_filter -> get_bit f' 3 = Some true) /\
    (bit_array_size_ example_filter <= 3 ->
     f' = example_filter /\ get_bit f' 3 = Some false) /\
    (forall q, 0 <= q -> q <> 3 -> get_bit f' q = get_bit example_filter q) /\
    set_bit f' 3 = Some f'.
Proof.
  split; [exact example_filter_wf|]. split; [lia|].
  apply (set_bit_get_bit example_filter 3); [exact example_filter_wf|lia].
Defined.

Lemma contains_iff_all_probes_set_witness :
  wf example_filter /\ bytes_a <> [] /\
  (contains example_filter (Some bytes_a) = Some true <->
   forall p, p ∈ probes example_filter bytes_a ->
             get_bit example_filter p = Some true) /\
  (contains example_filter (Some bytes_a) = Some false <->
   exists p, p ∈ probes example_filter bytes_a /\
             get_bit example_filter p = Some false).
Proof.
  split; [exact example_filter_wf|]. split; [exact bytes_a_nonempty|].
  apply (contains_iff_all_probes_set example_filter bytes_a);
    [exact example_filter_wf|exact bytes_a_nonempty].
Defined.

Lemma all_inserted_found_witness :
  wf example_filter /\ Some bytes_a ∈ [Some bytes_b; Some bytes_a; None] /\
  bytes_a <> [] /\
  exists f', insert_all example_filter [Some bytes_b; Some bytes_a; None]
             = Some f' /\
             contains f' (Some bytes_a) = Some true.
Proof.
  assert (Some bytes_a ∈ [Some bytes_b; Some bytes_a; None]) as Hin
    by (apply elem_of_cons; right; apply elem_of_cons; by left).
  split; [exact example_filter_wf|]. split; [exact Hin|].
  split; [exact bytes_a_nonempty|].
  apply (all_inserted_found example_filter
           [Some bytes_b; Some bytes_a; None] bytes_a);
    [exact example_filter_wf|exact Hin|exact bytes_a_nonempty].
Defined.

Lemma contains_iff_probes_covered_witness :
  wf fresh_filter /\ Forall (eq 0) (bit_array_ fresh_filter) /\
  bytes_a <> [] /\
  exists f', insert_all fresh_filter [Some bytes_b] = Some f' /\
    (contains f' (Some bytes_a) = Some true <->
     forall p, p ∈ probes fresh_filter bytes_a ->
       exists x, Some x ∈ [Some bytes_b] /\ x <> [] /\
                 p ∈ probes fresh_filter x).
Proof.
  split; [exact fresh_filter_wf|]. split; [exact fresh_filter_zero|].
  split; [exact bytes_a_nonempty|].
  apply (contains_iff_probes_covered fresh_filter [Some bytes_b] bytes_a);
    [exact fresh_filter_wf|exact fresh_filter_zero|exact bytes_a_nonempty].
Defined.

Lemma explicit_filter_starts_empty_witness :
  0 <= 10 /\ 10 + 7 < 2 ^ 64 /\ 0 <= 3 /\
  BloomFilter_explicit libm_unused 10 3 0 = Constructed fresh_filter /\
  wf fresh_filter /\ bit_array_size fresh_filter = 10 /\
  hash_count fresh_filter = 3 /\ capacity fresh_filter = 0 /\
  size fresh_filter = 0 /\ count_set_bits fresh_filter = Some 0 /\
  contains fresh_filter (Some bytes_a) = Some false.
Proof.
  split; [lia|]. split; [lia|]. split; [lia|]. split; [reflexivity|].
  apply (explicit_filter_starts_empty libm_unused 10 3 0 fresh_filter
           (Some bytes_a)); [lia|lia|lia|reflexivity].
Defined.

Lemma derived_filter_starts_empty_witness :
  BloomFilter_derived libm_rate_001 1000 0.01%float
  = Constructed derived_example /\
  wf derived_example /\ 64 <= bit_array_size derived_example <= 2 ^ 64 - 2048 /\
  capacity derived_example = 1000 /\
  false_positive_rate derived_example = 0.01%float /\
  size derived_example = 0 /\ count_set_bits derived_example = Some 0 /\
  contains derived_example (Some bytes_a) = Some false.
Proof.
  assert (BloomFilter_derived libm_rate_001 1000 0.01%float
          = Constructed derived_example) as Hd by (vm_compute; reflexivity).
  split; [exact Hd|].
  exact (derived_filter_starts_empty libm_rate_001 1000 0.01%float
           derived_example (Some bytes_a) Hd).
Defined.

Lemma clear_forgets_inserts_witness :
  wf example_filter /\ 1 <= hash_count_ example_filter /\
  exists f', insert_all example_filter [Some bytes_a; Some bytes_b] = Some f' /\
             clear f' = clear example_filter /\
             contains (clear f') (Some bytes_a) = Some false.
Proof.
  split; [exact example_filter_wf|]. split; [simpl; lia|].
  apply (clear_forgets_inserts example_filter [Some bytes_a; Some bytes_b]
           (Some bytes_a)); [exact example_filter_wf|simpl; lia].
Defined.

Lemma insert_order_irrelevant_witness :
  wf example_filter /\
  Permutation [Some bytes_a; Some bytes_b] [Some bytes_b; Some bytes_a] /\
  insert_all example_filter [Some bytes_a; Some bytes_b]
  = insert_all example_filter [Some bytes_b; Some bytes_a].
Proof.
  split; [exact example_filter_wf|]. split; [apply perm_swap|].
  apply (insert_order_irrelevant example_filter
           [Some bytes_a; Some bytes_b] [Some bytes_b; Some bytes_a]);
    [exact example_filter_wf|apply perm_swap].
Defined.

Lemma insert_sets_at_most_k_bits_witness :
  wf fresh_filter /\ 0 <= hash_count_ fresh_filter /\
  nonempty_calls [Some bytes_a; Some bytes_b] < 2 ^ 64 /\
  (exists f' c c', insert fresh_filter (Some bytes_a) = Some f' /\
     count_set_bits fresh_filter = Some c /\
     count_set_bits f' = Some c' /\ c' <= c + hash_count fresh_filter) /\
  (Forall (eq 0) (bit_array_ fresh_filter) -> size fresh_filter = 0 ->
   exists f' c, insert_all fresh_filter [Some bytes_a; Some bytes_b] = Some f' /\
     count_set_bits f' = Some c /\ c <= hash_count f' * size f').
Proof.
  split; [exact fresh_filter_wf|]. split; [simpl; lia|].
  split; [vm_compute; reflexivity|].
  apply (insert_sets_at_most_k_bits fresh_filter (Some bytes_a)
           [Some bytes_a; Some bytes_b]);
    [exact fresh_filter_wf|simpl; lia|vm_compute; reflexivity].
Defined.

Lemma hash_agrees_with_get_all_hashes_witness :
  0 <= 2 < 3 /\
  get_all_hashes (DoubleHasher_new 100) bytes_a 3
    ≫= (fun hs => hs !! Z.to_nat 2)
  = DoubleHasher_hash (DoubleHasher_new 100) bytes_a 2.
Proof.
  split; [lia|].
  apply (hash_agrees_with_get_all_hashes (DoubleHasher_new 100) bytes_a 3 2).
  lia.
Defined.

Lemma pow2_probes_distinct_witness :
  0 <= 4 <= 64 /\ dh_bit_array_size_ (DoubleHasher_new 16) = 2 ^ 4 /\
  0 <= 3 <= 2 ^ 4 /\
  exists hs, get_all_hashes (DoubleHasher_new 16) bytes_a 3 = Some hs /\
             Z.of_nat (length hs) = 3 /\ NoDup hs.
Proof.
  split; [lia|]. split; [reflexivity|]. split; [lia|].
  apply (pow2_probes_distinct (DoubleHasher_new 16) bytes_a 4 3);
    [lia|reflexivity|lia].
Defined.

Lemma pow2_insert_sets_k_bits_witness :
  wf pow2_filter /\ Forall (eq 0) (bit_array_ pow2_filter) /\ bytes_a <> [] /\
  0 <= 4 <= 64 /\ bit_array_size_ pow2_filter = 2 ^ 4 /\
  0 <= hash_count_ pow2_filter <= 2 ^ 4 /\
  exists f', insert pow2_filter (Some bytes_a) = Some f' /\
             count_set_bits f' = Some (hash_count pow2_filter).
Proof.
  split; [exact pow2_filter_wf|]. split; [exact pow2_filter_zero|].
  split; [exact bytes_a_nonempty|]. split; [lia|]. split; [reflexivity|].
  split; [simpl; lia|].
  apply (pow2_insert_sets_k_bits pow2_filter bytes_a 4);
    [exact pow2_filter_wf|exact pow2_filter_zero|exact bytes_a_nonempty
    |lia|reflexivity|simpl; lia].
Defined.

Lemma fmix64_round_trip_witness :
  0 <= 42 < 2 ^ 64 /\ 0 <= 7 < 2 ^ 64 /\
  fmix64_inv (MurmurHash3.fmix64 42) = 42 /\
  MurmurHash3.fmix64 (fmix64_inv 42) = 42 /\
  (MurmurHash3.fmix64 42 = MurmurHash3.fmix64 7 -> 42 = 7).
Proof.
  split; [lia|]. split; [lia|]. apply (fmix64_round_trip 42 7); lia.
Defined.

Lemma fnv1a_last_byte_witness :
  0 <= 0 < 2 ^ 64 /\
  FNV1a.hash [] 0 = Z.lxor 0xcbf29ce484222325 0 /\
  FNV1a.hash (bytes_a ++ bytes_b) 0
  = foldl FNV1a.step (FNV1a.hash bytes_a 0) bytes_b /\
  fnv1a_unstep (FNV1a.hash (bytes_a ++ [Byte.x61]) 0) Byte.x61
  = FNV1a.hash bytes_a 0 /\
  (FNV1a.hash (bytes_a ++ [Byte.x61]) 0 = FNV1a.hash (bytes_a ++ [Byte.x62]) 0 ->
   Byte.x61 = Byte.x62).
Proof.
  split; [lia|].
  apply (fnv1a_last_byte bytes_a bytes_b Byte.x61 Byte.x62 0). lia.
Defined.

Lemma hash_seed_injective_witness :
  Z.of_nat (length bytes_a) < 2 ^ 64 /\ 0 <= 1 < 2 ^ 64 /\ 0 <= 2 < 2 ^ 64 /\
  (MurmurHash3.hash bytes_a 1 = MurmurHash3.hash bytes_a 2 -> 1 = 2) /\
  MurmurHash3.hash bytes_a (hash1_ (DoubleHasher_new 10))
  <> MurmurHash3.hash bytes_a (hash2_ (DoubleHasher_new 10)).
Proof.
  split; [simpl; lia|]. split; [lia|]. split; [lia|].
  apply (hash_seed_injective bytes_a 1 2 10); [simpl; lia|lia|lia].
Defined.

Lemma hash_zero_byte_appended_witness :
  Z.of_nat (length bytes_a) + 1 < 2 ^ 64 /\
  Z.of_nat (length bytes_a) mod 8 <> 7 /\ 0 <= 0 < 2 ^ 64 /\
  MurmurHash3.hash (bytes_a ++ [Byte.x00]) 0 <> MurmurHash3.hash bytes_a 0.
Proof.
  split; [simpl; lia|]. split; [vm_compute; congruence|]. split; [lia|].
  apply (hash_zero_byte_appended bytes_a 0);
    [simpl; lia|vm_compute; congruence|lia].
Defined.



Lemma memory_usage_grows_with_size_witness :
  wf example_filter /\ wf pow2_filter /\ 0 <= 112 /\
  bit_array_size pow2_filter + 7 + 8 * 112 < 2 ^ 64 /\
  bit_array_size example_filter <= bit_array_size pow2_filter /\
  memory_usage 112 example_filter
  = (bit_array_size example_filter + 7) / 8 + 112 /\
  memory_usage 112 example_filter <= memory_usage 112 pow2_filter /\
  exists f', insert example_filter (Some bytes_a) = Some f' /\
             memory_usage 112 f' = memory_usage 112 example_filter.
Proof.
  split; [exact example_filter_wf|]. split; [exact pow2_filter_wf|].
  split; [lia|]. split; [simpl; lia|]. split; [simpl; lia|].
  apply (memory_usage_grows_with_size example_filter pow2_filter 112
           (Some bytes_a));
    [exact example_filter_wf|exact pow2_filter_wf|lia|simpl; lia|simpl; lia].
Defined.

Lemma largest_sizes_wrap_witness :
  2 ^ 64 - 8 < 2 ^ 64 - 1 < 2 ^ 64 /\ 1 <= 1 <= 32 /\ bytes_a <> [] /\
  exists f, BloomFilter_explicit libm_unused (2 ^ 64 - 1) 1 0 = Constructed f /\
            bit_array_size f = 2 ^ 64 - 1 /\ bit_array_ f = [] /\
            insert f (Some bytes_a) = None /\
            contains f (Some bytes_a) = None /\
            count_set_bits f = None.
Proof.
  split; [lia|]. split; [lia|]. split; [exact bytes_a_nonempty|].
  apply (largest_sizes_wrap libm_unused (2 ^ 64 - 1) 1 0 bytes_a);
    [lia|lia|exact bytes_a_nonempty].
Defined.

Lemma string_insert_then_contains_witness :
  wf example_filter /\
  exists f', insert_string example_filter
               (String.String (Ascii.ascii_of_nat 97) String.EmptyString)
             = Some f' /\
    (String.String (Ascii.ascii_of_nat 97) String.EmptyString
     = String.EmptyString ->
     f' = example_filter /\
     contains_string f'
       (String.String (Ascii.ascii_of_nat 97) String.EmptyString)
     = Some false) /\
    (String.String (Ascii.ascii_of_nat 97) String.EmptyString
     <> String.EmptyString ->
     contains_string f'
       (String.String (Ascii.ascii_of_nat 97) String.EmptyString)
     = Some true).
Proof.
  split; [exact example_filter_wf|].
  apply (string_insert_then_contains example_filter
           (String.String (Ascii.ascii_of_nat 97) String.EmptyString)).
  exact example_filter_wf.
Defined.
